(** * TranscribeIT: the word aligner of [script.js]

    A shallow embedding of [wordEditDistance] (script.js, lines 2-67) and of
    the scoring arithmetic of [showResult] (lines 183-199), together with
    the properties the specification states about them.

    Conventions of the embedding.
    - A JavaScript array is a [list]; reading is stdpp's lookup [l !! k].
    - Loop counters and indices are [nat]; numbers stored in the table are
      [Z] (they are small non-negative integers, exactly representable as
      JavaScript numbers).
    - The code lives in the [option] monad. [None] stands for an execution
      that leaves the fragment modelled here: a read of [dp[i][j]] outside
      the allocated table (a [TypeError] or an [undefined] operand in
      JavaScript), a write outside an array (JavaScript would extend the
      array), or a traceback loop that has not finished within its fuel.
      [wordEditDistance_fuel_correct] shows that none of these happens.
    - [prevRow] and [currRow] (lines 11-14) are written but never read; they
      are not modelled. *)

From stdpp Require Import base option list strings.
From Stdlib Require Import ZArith QArith Qabs Qround Lia.

Local Open Scope Z_scope.
Local Open Scope nat_scope.

(** ** Arrays *)

Module Table.

(** [dp[i][j]] *)
Definition get (dp : list (list Z)) (i j : nat) : option Z :=
  row ← dp !! i; row !! j.

(** [dp[i][j] = v] *)
Definition set (dp : list (list Z)) (i j : nat) (v : Z)
  : option (list (list Z)) :=
  row ← dp !! i;
  if decide (j < length row) then Some (<[i := <[j := v]> row]> dp)
  else None.

(** [Array.from({ length: m + 1 }, () => new Array(n + 1).fill(0))] *)
Definition alloc (m n : nat) : list (list Z) :=
  replicate (S m) (replicate (S n) 0%Z).

(** The table has [m + 1] rows of [n + 1] cells. *)
Definition shape (m n : nat) (dp : list (list Z)) : Prop :=
  length dp = S m ∧ ∀ i row, dp !! i = Some row → length row = S n.

End Table.

(** [marks[k] = true] *)
Definition mark (marks : list bool) (k : nat) : option (list bool) :=
  if decide (k < length marks) then Some (<[k := true]> marks) else None.

(** ** Loops *)

(** [count] iterations of [body], the counter starting at [lo]. *)
Fixpoint for_loop {A} (body : nat → A → option A) (lo count : nat) (a : A)
  : option A :=
  match count with
  | 0 => Some a
  | S count' => a' ← body lo a; for_loop body (S lo) count' a'
  end.

(** [for (let k = lo; k <= hi; k++) body] *)
Definition for_upto {A} (body : nat → A → option A) (lo hi : nat) (a : A)
  : option A :=
  for_loop body lo (S hi - lo) a.

(** ** The table fill, lines 23-39 *)

Section Fill.

Variables originalWords typedWords : list string.

(** [originalWords[i-1] === typedWords[j-1]]: strict equality of two
    array reads. A read out of range is [undefined], here [None], and
    [undefined === undefined] holds. Only used with [1 <= i], [1 <= j]. *)
Definition same_word (i j : nat) : bool :=
  bool_decide (originalWords !! (i - 1) = typedWords !! (j - 1)).

(** Line 24. *)
Definition init_column (m : nat) (dp : list (list Z)) :=
  for_upto (λ i dp, Table.set dp i 0 (Z.of_nat i)) 0 m dp.

(** Line 25. *)
Definition init_row (n : nat) (dp : list (list Z)) :=
  for_upto (λ j dp, Table.set dp 0 j (Z.of_nat j)) 0 n dp.

(** Lines 29-37, the body of the inner loop. *)
Definition fill_cell (i j : nat) (dp : list (list Z))
  : option (list (list Z)) :=
  if same_word i j then
    diag ← Table.get dp (i - 1) (j - 1);
    Table.set dp i j diag
  else
    up ← Table.get dp (i - 1) j;
    left ← Table.get dp i (j - 1);
    diag ← Table.get dp (i - 1) (j - 1);
    Table.set dp i j (Z.min (Z.min (up + 1) (left + 1)) (diag + 1)).

(** Lines 27-39. *)
Definition fill (m n : nat) (dp : list (list Z)) :=
  for_upto (λ i dp, for_upto (λ j dp, fill_cell i j dp) 1 n dp) 1 m dp.

(** Lines 23-39. *)
Definition build_table : option (list (list Z)) :=
  let m := length originalWords in
  let n := length typedWords in
  dp ← init_column m (Table.alloc m n);
  dp ← init_row n dp;
  fill m n dp.

End Fill.

(** ** The traceback, lines 41-64 *)

(** The five arms of the conditional at lines 46-61. *)
Inductive branch := Match | Substitution | Deletion | Insertion | Fallback.

(** The variables the traceback loop updates. *)
Record cursor := Cursor {
  cur_i : nat;
  cur_j : nat;
  cur_original : list bool;
  cur_typed : list bool
}.

Section Traceback.

Variables originalWords typedWords : list string.
Variable dp : list (list Z).

(** Which arm of lines 46-61 is taken at [(i, j)]. The table is read in
    the order the conditions are evaluated. *)
Definition choose_branch (i j : nat) : option branch :=
  if same_word originalWords typedWords i j then Some Match
  else
    here ← Table.get dp i j;
    diag ← Table.get dp (i - 1) (j - 1);
    if bool_decide (here = (diag + 1)%Z) then Some Substitution
    else
      up ← Table.get dp (i - 1) j;
      if bool_decide (here = (up + 1)%Z) then Some Deletion
      else
        left ← Table.get dp i (j - 1);
        if bool_decide (here = (left + 1)%Z) then Some Insertion
        else Some Fallback.

(** The statements of the chosen arm. *)
Definition apply_branch (b : branch) (st : cursor) : option cursor :=
  let '(Cursor i j om tm) := st in
  match b with
  | Match => Some (Cursor (i - 1) (j - 1) om tm)
  | Substitution =>
      om' ← mark om (i - 1);
      tm' ← mark tm (j - 1);
      Some (Cursor (i - 1) (j - 1) om' tm')
  | Deletion =>
      om' ← mark om (i - 1);
      Some (Cursor (i - 1) j om' tm)
  | Insertion =>
      tm' ← mark tm (j - 1);
      Some (Cursor i (j - 1) om tm')
  | Fallback => Some (Cursor (i - 1) (j - 1) om tm)
  end.

(** One iteration of the loop at line 45. *)
Definition trace_step (st : cursor) : option cursor :=
  b ← choose_branch (cur_i st) (cur_j st);
  apply_branch b st.

(** [while (i > 0 && j > 0) { ... }], at most [fuel] iterations. *)
Fixpoint trace_loop (fuel : nat) (st : cursor) : option cursor :=
  if bool_decide (0 < cur_i st) && bool_decide (0 < cur_j st) then
    match fuel with
    | 0 => None
    | S fuel' => st' ← trace_step st; trace_loop fuel' st'
    end
  else Some st.

(** The states the loop at line 45 passes through, from a start state. *)
Inductive visits (start : cursor) : cursor → Prop :=
| visits_start : visits start start
| visits_next st st' :
    visits start st →
    0 < cur_i st → 0 < cur_j st →
    trace_step st = Some st' →
    visits start st'.

End Traceback.

(** Lines 63 and 64: [while (k > 0) { marks[k-1] = true; k--; }] *)
Fixpoint mark_rest (k : nat) (marks : list bool) : option (list bool) :=
  match k with
  | 0 => Some marks
  | S k' => marks' ← mark marks k'; mark_rest k' marks'
  end.

(** ** [wordEditDistance] *)

Record alignment := Alignment {
  errors : Z;
  originalMark : list bool;
  typedMark : list bool
}.

(** The state at line 43, before the traceback. *)
Definition start_cursor (m n : nat) : cursor :=
  Cursor m n (replicate m false) (replicate n false).

Definition wordEditDistance_fuel (fuel : nat)
    (originalWords typedWords : list string) : option alignment :=
  let m := length originalWords in
  let n := length typedWords in
  dp ← build_table originalWords typedWords;
  st ← trace_loop originalWords typedWords dp fuel (start_cursor m n);
  om ← mark_rest (cur_i st) (cur_original st);
  tm ← mark_rest (cur_j st) (cur_typed st);
  e ← Table.get dp m n;
  Some (Alignment e om tm).

(** The loop at line 45 lowers [i + j] in every iteration, so [m + n]
    iterations are enough ([wordEditDistance_fuel_correct]). *)
Definition wordEditDistance (originalWords typedWords : list string)
  : option alignment :=
  wordEditDistance_fuel (length originalWords + length typedWords)
    originalWords typedWords.

(** ** The specification's distance and marking

    These two definitions follow the words of the specification (section
    4.1), not the code: a recursive distance over prefixes and a backward
    walk over that distance which collects the marked positions. *)

Module Spec.
Section Spec.

Variables reference typed : list string.

(** distance(i, j): the edit distance between the first [i] reference
    tokens and the first [j] typed tokens. *)
Fixpoint distance (i j : nat) : Z :=
  match i with
  | 0 => Z.of_nat j
  | S i' =>
      (fix along_row (j : nat) : Z :=
         match j with
         | 0 => Z.of_nat (S i')
         | S j' =>
             if bool_decide (reference !! i' = typed !! j')
             then distance i' j'
             else (1 + Z.min (Z.min (distance i' j') (distance i' (S j')))
                             (along_row j'))%Z
         end) j
  end.

(** The walk back from [(i, j)]: the reference positions and the typed
    positions it marks. *)
Fixpoint marked (i j : nat) : list nat * list nat :=
  match i with
  | 0 => ([], seq 0 j)
  | S i' =>
      (fix along_row (j : nat) : list nat * list nat :=
         match j with
         | 0 => (seq 0 (S i'), [])
         | S j' =>
             if bool_decide (reference !! i' = typed !! j')
             then marked i' j'
             else if bool_decide
                       (distance (S i') (S j') = (distance i' j' + 1)%Z)
             then (i' :: (marked i' j').1, j' :: (marked i' j').2)
             else if bool_decide
                       (distance (S i') (S j') = (distance i' (S j') + 1)%Z)
             then (i' :: (marked i' (S j')).1, (marked i' (S j')).2)
             else if bool_decide
                       (distance (S i') (S j') = (distance (S i') j' + 1)%Z)
             then ((along_row j').1, j' :: (along_row j').2)
             else marked i' j'
         end) j
  end.

(** A marking vector of [len] entries, true at the positions in [ps]. *)
Definition marks_vector (len : nat) (ps : list nat) : list bool :=
  (λ k, bool_decide (k ∈ ps)) <$> seq 0 len.

Definition reference_marks : list bool :=
  marks_vector (length reference)
    (marked (length reference) (length typed)).1.

Definition typed_marks : list bool :=
  marks_vector (length typed)
    (marked (length reference) (length typed)).2.

End Spec.
End Spec.

(** The table has [m + 1] rows of [n + 1] cells and, in region [R], holds
    the specification's distance. *)
Definition known (originalWords typedWords : list string) (m n : nat)
    (R : nat → nat → Prop) (dp : list (list Z)) : Prop :=
  Table.shape m n dp ∧
  ∀ i j, R i j →
         Table.get dp i j = Some (Spec.distance originalWords typedWords i j).

(** [after] is [before] with the positions [ps] set to true. *)
Definition marks_are (ps : list nat) (before after : list bool) : Prop :=
  length after = length before ∧
  ∀ k, after !! k = if decide (k ∈ ps) then Some true else before !! k.

(** ** The scoring arithmetic of [showResult], lines 183-199 *)

(** A JavaScript number: a finite value, idealised as an exact rational
    (rounding to double precision is not modelled), an infinity or NaN.
    Zero is the positive zero; the divisors below are never a negative
    zero. *)
Inductive jsnum := Finite (q : Q) | PosInfinity | NegInfinity | NaN.

Definition js_of_Z (z : Z) : jsnum := Finite (inject_Z z).

(** [a / b] *)
Definition js_div (a b : jsnum) : jsnum :=
  match a, b with
  | NaN, _ | _, NaN => NaN
  | Finite x, Finite y =>
      if Qeq_bool y 0 then
        if Qeq_bool x 0 then NaN
        else if Qle_bool 0 x then PosInfinity else NegInfinity
      else Finite (x / y)
  | Finite _, _ => Finite 0
  | PosInfinity, Finite y => if Qle_bool 0 y then PosInfinity else NegInfinity
  | NegInfinity, Finite y => if Qle_bool 0 y then NegInfinity else PosInfinity
  | _, _ => NaN
  end.

(** [a * b] *)
Definition js_mul (a b : jsnum) : jsnum :=
  let infinite (negative : bool) (y : Q) :=
    if Qeq_bool y 0 then NaN
    else if xorb negative (Qle_bool 0 y) then PosInfinity else NegInfinity in
  match a, b with
  | NaN, _ | _, NaN => NaN
  | Finite x, Finite y => Finite (x * y)
  | PosInfinity, Finite y | Finite y, PosInfinity => infinite false y
  | NegInfinity, Finite y | Finite y, NegInfinity => infinite true y
  | PosInfinity, PosInfinity | NegInfinity, NegInfinity => PosInfinity
  | _, _ => NegInfinity
  end.

(** [a || b] on numbers: [a] unless it is falsy (zero or NaN). *)
Definition js_or (a b : jsnum) : jsnum :=
  match a with
  | NaN => b
  | Finite q => if Qeq_bool q 0 then b else a
  | _ => a
  end.

(** What [x.toFixed(2)] prints: [NaN], a signed [Infinity], or a sign and
    a count of hundredths (the nearest one, the larger on a tie). *)
Inductive fixed :=
| FixedNaN
| FixedInfinity (negative : bool)
| FixedDecimal (negative : bool) (hundredths : Z).

Definition toFixed2 (x : jsnum) : fixed :=
  match x with
  | NaN => FixedNaN
  | PosInfinity => FixedInfinity false
  | NegInfinity => FixedInfinity true
  | Finite q =>
      FixedDecimal (negb (Qle_bool 0 q))
                   (Qfloor (Qabs q * inject_Z 100 + (1 # 2)))
  end.

Definition is_number (x : fixed) : bool :=
  match x with FixedDecimal _ _ => true | _ => false end.

Definition is_negative (x : fixed) : bool :=
  match x with
  | FixedDecimal negative _ | FixedInfinity negative => negative
  | FixedNaN => false
  end.

Module History.

(** An entry of the history log (line 239), without its date. *)
Record record := Record {
  passage : string;
  typed : string;
  grossWPM : fixed;
  netWPM : fixed;
  accuracy : fixed;
  errors : Z
}.

End History.

(** Lines 237-241, on the parsed history log. *)
Definition saveHistoryRecord (passage typed : string)
    (gross net accuracy : fixed) (errors : Z)
    (history : list History.record) : list History.record :=
  history ++ [History.Record passage typed gross net accuracy errors].

(** What lines 203-209 put on the page. *)
Record display := Display {
  shown_grossWPM : fixed;
  shown_netWPM : fixed;
  shown_accuracy : fixed;
  shown_errors : Z
}.

Section ShowResult.

(** [s.trim().split(/\s+/).filter(w => w.length > 0)], lines 188-189. *)
Variable tokenize : string → list string.

(** Lines 184-209. [storedTime] is [parseFloat] of the stored time; the
    result is the history log after line 199 and the figures shown. *)
Definition showResult (passage typed : string) (storedTime : jsnum)
    (history : list History.record)
  : option (list History.record * display) :=
  let timeTaken := js_or storedTime (Finite (1 # 100)) in
  let originalWords := tokenize passage in
  let typedWords := tokenize typed in
  let wordsTypedCount := Z.of_nat (length typedWords) in
  let grossWPM := toFixed2 (js_div (js_of_Z wordsTypedCount) timeTaken) in
  editRes ← wordEditDistance originalWords typedWords;
  let mistakes := errors editRes in
  let netWPM :=
    toFixed2 (js_div (js_of_Z (wordsTypedCount - mistakes)) timeTaken) in
  let accuracy :=
    toFixed2 (js_mul (js_div (js_of_Z (wordsTypedCount - mistakes))
                             (js_of_Z wordsTypedCount))
                     (js_of_Z 100)) in
  Some (saveHistoryRecord passage typed grossWPM netWPM accuracy mistakes
          history,
        Display grossWPM netWPM accuracy mistakes).

End ShowResult.

(** A tokenizer for ASCII text: the maximal runs of characters other than
    space, tab, line feed, vertical tab, form feed and carriage return. *)
Definition is_space (c : Ascii.ascii) : bool :=
  let n := Ascii.nat_of_ascii c in
  bool_decide (n = 32) || (bool_decide (9 ≤ n) && bool_decide (n ≤ 13)).

Fixpoint split_words (word : string) (s : string) : list string :=
  let flush := if bool_decide (word = EmptyString) then [] else [word] in
  match s with
  | EmptyString => flush
  | String c s' =>
      if is_space c then flush ++ split_words EmptyString s'
      else split_words (word +:+ String c EmptyString) s'
  end.

Definition ascii_tokenize (s : string) : list string :=
  split_words EmptyString s.

(** ** The exam page, lines 70-72 and 144-180

    [timeLeft] is an integer number of seconds, exact as a JavaScript
    number below 2^53. The timer text is kept as the two numbers that line
    159 prints. Real time is not modelled: [tick] is one firing of the
    interval set at line 152. *)

Record exam := Exam {
  timeLeft : Z;
  timerRunning : bool;          (* the interval [timerInterval] is set *)
  timerShown : option (Z * Z);  (* minutes and seconds last written *)
  submitted : bool              (* [submitExam] has run *)
}.

(** [!s] for a string read from the store: [null] ([None]) or empty. *)
Definition no_text (s : option string) : bool :=
  match s with
  | None => true
  | Some s => bool_decide (s = EmptyString)
  end.

(** [!n] for a result of [parseInt]: NaN ([None]) or zero. *)
Definition no_number (n : option Z) : bool :=
  match n with
  | None => true
  | Some n => bool_decide (n = 0%Z)
  end.

Inductive exam_start := NoTestFound | ExamStarted (e : exam).

(** Lines 144-154. [passage] is the stored passage and [duration] is
    [parseInt] of the stored time. *)
Definition startExam (passage : option string) (duration : option Z)
  : exam_start :=
  if no_text passage || no_number duration then NoTestFound
  else ExamStarted (Exam (default 0%Z duration * 60) true None false).

(** Lines 164-180: the button is disabled, the interval cleared and the
    storing of the result scheduled. *)
Definition submitExam (e : exam) : exam :=
  Exam (timeLeft e) false (timerShown e) true.

(** Lines 156-162. *)
Definition updateTimer (e : exam) : exam :=
  let min := (timeLeft e / 60)%Z in
  let sec := Z.rem (timeLeft e) 60 in
  let e' := Exam (timeLeft e - 1) (timerRunning e) (Some (min, sec))
              (submitted e) in
  if (timeLeft e' <? 0)%Z then submitExam e' else e'.

(** One firing of the interval: nothing once it is cleared. *)
Definition tick (e : exam) : exam :=
  if timerRunning e then updateTimer e else e.

Definition ticks (k : nat) (e : exam) : exam := Nat.iter k tick e.

(** ** The home page, lines 85-130

    The [passages] entry of the store is kept as the list it parses to
    (the empty list when the entry is missing, line 88). The rendering of
    the saved list is not modelled. *)

Record home := Home {
  passageInput : string;     (* the value of #passageInput *)
  passages : list string     (* the parsed [passages] entry *)
}.


Section Home.

(** [s.trim()] *)
Variable trim : string → string.

(** Lines 85-93: the new state and the alert, if any. *)
Definition savePassage (h : home) : home * option string :=
  let passage := trim (passageInput h) in
  if bool_decide (passage = EmptyString)
  then (h, Some "Enter passage first"%string)
  else (Home EmptyString (passages h ++ [passage]), None).

(** Lines 110-113, for an index inside the saved list. *)
Definition usePassage (i : nat) (h : home) : option home :=
  p ← passages h !! i; Some (Home p (passages h)).

(** Lines 115-121. [confirmed] is the answer to the confirmation.
    [splice(i, 1)] removes nothing when [i] is past the end. *)
Definition deletePassage (i : nat) (confirmed : bool) (h : home) : home :=
  if confirmed then Home (passageInput h) (delete i (passages h)) else h.


(** What changes the home page: the text field gets a new content (typed
    by the user, or put there by [usePassage]), or one of the two functions
    that write the [passages] entry is called. *)
Inductive home_action :=
| Edit (text : string)
| SavePassage
| DeletePassage (i : nat) (confirmed : bool).

Definition home_step (h : home) (a : home_action) : home :=
  match a with
  | Edit text => Home text (passages h)
  | SavePassage => (savePassage h).1
  | DeletePassage i confirmed => deletePassage i confirmed h
  end.

Definition home_run (actions : list home_action) (h : home) : home :=
  foldl home_step h actions.

End Home.

(** An instance of [trim] for ASCII text. *)
Fixpoint trim_start (s : string) : string :=
  match s with
  | String c s' => if is_space c then trim_start s' else s
  | EmptyString => EmptyString
  end.

Definition ascii_trim (s : string) : string :=
  String.rev (trim_start (String.rev (trim_start s))).

(** A stored passage is a trimmed text and is not empty. *)
Definition well_saved (trim : string → string) (p : string) : Prop :=
  p ≠ EmptyString ∧ ∃ text, p = trim text.

(** ** Measures used by the further properties *)

(** The number of marked entries of a marking vector. *)
Definition count_marked (marks : list bool) : nat :=
  length (filter (λ b, b = true) marks).

(** A comparison position by position: the number of indices below the
    longer length at which [A[k] !== B[k]] (past the end of the shorter
    sequence one side is [undefined]). *)
Definition mismatched_positions (A B : list string) : nat :=
  length (filter (λ k, A !! k ≠ B !! k) (seq 0 (length A `max` length B))).

(** Two cells next to each other in a row of the specification's table
    differ by at most one. *)
Definition row_step (reference typed : list string) (i j : nat) : Prop :=
  (Spec.distance reference typed i (S j)
   ≤ Spec.distance reference typed i j + 1)%Z ∧
  (Spec.distance reference typed i j
   ≤ Spec.distance reference typed i (S j) + 1)%Z.

(** The same in a column. *)
Definition column_step (reference typed : list string) (i j : nat) : Prop :=
  (Spec.distance reference typed (S i) j
   ≤ Spec.distance reference typed i j + 1)%Z ∧
  (Spec.distance reference typed i j
   ≤ Spec.distance reference typed (S i) j + 1)%Z.

(** * Properties *)

(** ** Loops and arrays *)

Lemma for_loop_invariant {A} (P : nat → A → Prop) body lo count (a : A) :
  P lo a →
  (∀ k x, lo ≤ k < lo + count → P k x → ∃ y, body k x = Some y ∧ P (S k) y) →
  ∃ b, for_loop body lo count a = Some b ∧ P (lo + count) b.
Proof.
  revert lo a. induction count as [|count IH]; intros lo a Ha Hbody.
  - exists a. rewrite Nat.add_0_r. done.
  - destruct (Hbody lo a ltac:(lia) Ha) as (y & Hy & HPy).
    destruct (IH (S lo) y HPy) as (b & Hb & HPb).
    + intros k x Hk. apply Hbody. lia.
    + exists b. simpl. rewrite Hy. simpl.
      replace (lo + S count) with (S lo + count) by lia. done.
Qed.

Lemma for_upto_invariant {A} (P : nat → A → Prop) body lo hi (a : A) :
  lo ≤ S hi →
  P lo a →
  (∀ k x, lo ≤ k ≤ hi → P k x → ∃ y, body k x = Some y ∧ P (S k) y) →
  ∃ b, for_upto body lo hi a = Some b ∧ P (S hi) b.
Proof.
  intros Hle Ha Hbody. unfold for_upto.
  destruct (for_loop_invariant P body lo (S hi - lo) a Ha) as (b & Hb & HPb).
  - intros k x Hk. apply Hbody. lia.
  - exists b. replace (lo + (S hi - lo)) with (S hi) in HPb by lia. done.
Qed.

Lemma table_alloc_shape m n : Table.shape m n (Table.alloc m n).
Proof.
  split.
  - apply length_replicate.
  - intros i row [-> _]%lookup_replicate. apply length_replicate.
Qed.

Lemma table_get_is_Some m n dp i j :
  Table.shape m n dp → i ≤ m → j ≤ n → is_Some (Table.get dp i j).
Proof.
  intros [Hlen Hrows] Hi Hj. unfold Table.get.
  destruct (lookup_lt_is_Some_2 dp i ltac:(lia)) as [row Hrow].
  rewrite Hrow. simpl. apply lookup_lt_is_Some_2.
  rewrite (Hrows _ _ Hrow). lia.
Qed.

Lemma table_set_spec m n dp i j v :
  Table.shape m n dp → i ≤ m → j ≤ n →
  ∃ dp', Table.set dp i j v = Some dp' ∧ Table.shape m n dp' ∧
         ∀ i' j', Table.get dp' i' j' =
                  if decide (i' = i ∧ j' = j) then Some v
                  else Table.get dp i' j'.
Proof.
  intros [Hlen Hrows] Hi Hj. unfold Table.set.
  destruct (lookup_lt_is_Some_2 dp i ltac:(lia)) as [row Hrow].
  pose proof (Hrows _ _ Hrow) as Hrowlen.
  rewrite Hrow. simpl. rewrite decide_True by lia.
  eexists. split; [done|]. split.
  - split; [by rewrite length_insert|].
    intros i' row'. destruct (decide (i' = i)) as [->|Hne].
    + rewrite list_lookup_insert_eq by lia. intros [= <-].
      by rewrite length_insert.
    + rewrite list_lookup_insert_ne by done. apply Hrows.
  - intros i' j'. unfold Table.get.
    destruct (decide (i' = i)) as [->|Hne].
    + rewrite list_lookup_insert_eq by lia. rewrite Hrow. simpl.
      destruct (decide (j' = j)) as [->|Hnej].
      * rewrite decide_True by done. apply list_lookup_insert_eq. lia.
      * rewrite decide_False by (intros [_ ?]; done).
        by apply list_lookup_insert_ne.
    + rewrite list_lookup_insert_ne by done.
      rewrite decide_False by (intros [? _]; done). done.
Qed.

Lemma mark_spec marks k :
  k < length marks →
  ∃ marks', mark marks k = Some marks' ∧ length marks' = length marks ∧
            ∀ k', marks' !! k' = if decide (k' = k) then Some true
                                 else marks !! k'.
Proof.
  intros Hk. unfold mark. rewrite decide_True by done.
  eexists. split; [done|]. split; [by rewrite length_insert|].
  intros k'. destruct (decide (k' = k)) as [->|Hne].
  - by apply list_lookup_insert_eq.
  - by apply list_lookup_insert_ne.
Qed.

(** ** The specification's distance *)

Section Distance.

Variables reference typed : list string.

Local Abbreviation distance := (Spec.distance reference typed).

Lemma distance_0_l j : distance 0 j = Z.of_nat j.
Proof. reflexivity. Qed.

Lemma distance_0_r i : distance i 0 = Z.of_nat i.
Proof. by destruct i. Qed.

Lemma distance_S_S i j :
  distance (S i) (S j) =
  if bool_decide (reference !! i = typed !! j) then distance i j
  else (1 + Z.min (Z.min (distance i j) (distance i (S j)))
                  (distance (S i) j))%Z.
Proof. reflexivity. Qed.

Lemma distance_nonneg i j : (0 ≤ distance i j)%Z.
Proof.
  revert j. induction i as [|i IHi]; intros j.
  - rewrite distance_0_l. lia.
  - induction j as [|j IHj].
    + rewrite distance_0_r. lia.
    + rewrite distance_S_S. case_bool_decide.
      * apply IHi.
      * pose proof (IHi j). pose proof (IHi (S j)). lia.
Qed.

Lemma distance_le_max i j : (distance i j ≤ Z.of_nat (i `max` j))%Z.
Proof.
  revert j. induction i as [|i IHi]; intros j.
  - rewrite distance_0_l. lia.
  - induction j as [|j IHj].
    + rewrite distance_0_r. lia.
    + rewrite distance_S_S. pose proof (IHi j). case_bool_decide; lia.
Qed.

End Distance.

Lemma distance_sym reference typed i j :
  Spec.distance reference typed i j = Spec.distance typed reference j i.
Proof.
  revert j. induction i as [|i IHi]; intros j.
  - by rewrite distance_0_l, distance_0_r.
  - induction j as [|j IHj].
    + by rewrite distance_0_l, distance_0_r.
    + rewrite !distance_S_S, IHj, !IHi.
      rewrite (bool_decide_ext (reference !! i = typed !! j)
                               (typed !! j = reference !! i)) by done.
      case_bool_decide; lia.
Qed.

Lemma distance_diag words i : Spec.distance words words i i = 0%Z.
Proof.
  induction i as [|i IH]; [done|].
  rewrite distance_S_S, bool_decide_true by done. done.
Qed.

(** ** The table holds the specification's distance *)

Section FillCorrect.

Variables originalWords typedWords : list string.
Variables m n : nat.

Local Abbreviation distance := (Spec.distance originalWords typedWords).
Local Abbreviation known := (known originalWords typedWords m n).

Lemma known_weaken (R R' : nat → nat → Prop) dp :
  (∀ i j, R' i j → R i j) → known R dp → known R' dp.
Proof. intros Hsub [Hshape Hcells]. split; auto. Qed.

(** Writing a cell's final value keeps every final cell final. *)
Lemma set_known (R : nat → nat → Prop) dp i0 j0 :
  known R dp → i0 ≤ m → j0 ≤ n →
  ∃ dp', Table.set dp i0 j0 (distance i0 j0) = Some dp' ∧
         known (λ i j, R i j ∨ (i = i0 ∧ j = j0)) dp'.
Proof.
  intros [Hshape Hcells] Hi Hj.
  destruct (table_set_spec m n dp i0 j0 (distance i0 j0) Hshape Hi Hj)
    as (dp' & Hset & Hshape' & Hget).
  exists dp'. split; [done|]. split; [done|].
  intros i j HR. rewrite Hget. case_decide as Hij.
  - destruct Hij as [-> ->]. done.
  - destruct HR as [HR|HR]; [auto | done].
Qed.

Lemma init_column_known :
  ∃ dp, init_column m (Table.alloc m n) = Some dp ∧
        known (λ i j, j = 0 ∧ i ≤ m) dp.
Proof.
  destruct (for_upto_invariant
              (λ k dp, known (λ i j, j = 0 ∧ i < k) dp)
              (λ i dp, Table.set dp i 0 (Z.of_nat i)) 0 m
              (Table.alloc m n)) as (dp & Hdp & Hknown).
  - lia.
  - split; [apply table_alloc_shape | intros i j [_ ?]; lia].
  - intros k dp Hk Hknown.
    destruct (set_known _ dp k 0 Hknown) as (dp' & Hset & Hknown');
      [lia..|].
    rewrite distance_0_r in Hset. exists dp'. split; [done|].
    eapply known_weaken; [|done]. simpl. intros i j [-> Hi].
    destruct (decide (i = k)); [right | left]; lia.
  - exists dp. split; [done|].
    eapply known_weaken; [|done]. simpl. intros i j [-> Hi]. lia.
Qed.

Lemma init_row_known dp :
  known (λ i j, j = 0 ∧ i ≤ m) dp →
  ∃ dp', init_row n dp = Some dp' ∧
         known (λ i j, i ≤ m ∧ j ≤ n ∧ (i = 0 ∨ j = 0)) dp'.
Proof.
  intros Hstart.
  destruct (for_upto_invariant
              (λ k dp, known (λ i j, (j = 0 ∧ i ≤ m) ∨ (i = 0 ∧ j < k)) dp)
              (λ j dp, Table.set dp 0 j (Z.of_nat j)) 0 n dp)
    as (dp' & Hdp' & Hknown).
  - lia.
  - eapply known_weaken; [|done]. simpl. intros i j [?|[_ ?]]; [done|lia].
  - intros k x Hk Hknown.
    destruct (set_known _ x 0 k Hknown) as (x' & Hset & Hknown');
      [lia..|].
    rewrite distance_0_l in Hset. exists x'. split; [done|].
    eapply known_weaken; [|done]. simpl. intros i j [?|[-> Hj]]; [auto|].
    destruct (decide (j = k)); [right | left; right]; lia.
  - exists dp'. split; [done|].
    eapply known_weaken; [|done]. simpl. intros i j (Hi & Hj & [->| ->]).
    + right. lia.
    + left. lia.
Qed.

(** Lines 29-37 write distance(i, j) once its three neighbours are
    final. *)
Lemma fill_cell_known (R : nat → nat → Prop) dp i j :
  known R dp → 1 ≤ i ≤ m → 1 ≤ j ≤ n →
  R (i - 1) (j - 1) → R (i - 1) j → R i (j - 1) →
  ∃ dp', fill_cell originalWords typedWords i j dp = Some dp' ∧
         known (λ i' j', R i' j' ∨ (i' = i ∧ j' = j)) dp'.
Proof.
  intros Hknown Hi Hj Hdiag Hup Hleft.
  destruct (set_known R dp i j Hknown) as (dp' & Hset & Hknown');
    [lia..|].
  exists dp'. split; [|done].
  destruct Hknown as [_ Hcells].
  unfold fill_cell, same_word.
  rewrite (Hcells _ _ Hdiag), (Hcells _ _ Hup), (Hcells _ _ Hleft).
  destruct i as [|i]; [lia|]. destruct j as [|j]; [lia|].
  rewrite distance_S_S in Hset. simpl in *.
  rewrite !Nat.sub_0_r in *.
  case_bool_decide; simpl; [done|].
  rewrite <- Hset. do 2 f_equal. lia.
Qed.

Lemma fill_known dp :
  known (λ i j, i ≤ m ∧ j ≤ n ∧ (i = 0 ∨ j = 0)) dp →
  ∃ dp', fill originalWords typedWords m n dp = Some dp' ∧
         known (λ i j, i ≤ m ∧ j ≤ n) dp'.
Proof.
  intros Hstart. unfold fill.
  pose (rows := λ k i j, i ≤ m ∧ j ≤ n ∧ (j = 0 ∨ i < k)).
  pose (cells := λ k l i j, rows k i j ∨ (i = k ∧ j < l)).
  destruct (for_upto_invariant (λ k dp, known (rows k) dp)
              (λ i dp, for_upto
                         (λ j dp, fill_cell originalWords typedWords i j dp)
                         1 n dp)
              1 m dp) as (dp' & Hdp' & Hknown).
  - lia.
  - eapply known_weaken; [|done]. simpl. unfold rows. lia.
  - intros k x Hk Hrows.
    destruct (for_upto_invariant (λ l dp, known (cells k l) dp)
                (λ j dp, fill_cell originalWords typedWords k j dp)
                1 n x) as (x' & Hx' & Hcells).
    + lia.
    + eapply known_weaken; [|done]. unfold cells, rows. lia.
    + intros l y Hl Hy.
      destruct (fill_cell_known _ y k l Hy) as (y' & Hfill & Hy');
        [unfold cells, rows; lia..|].
      exists y'. split; [done|].
      eapply known_weaken; [|done]. simpl. unfold cells, rows. lia.
    + exists x'. split; [done|].
      eapply known_weaken; [|done]. unfold cells, rows. lia.
  - exists dp'. split; [done|].
    eapply known_weaken; [|done]. unfold rows. lia.
Qed.

End FillCorrect.

(** Lines 23-39 produce the table of the specification's distance. *)
Lemma build_table_correct originalWords typedWords :
  ∃ dp, build_table originalWords typedWords = Some dp ∧
        known originalWords typedWords
          (length originalWords) (length typedWords)
          (λ i j, i ≤ length originalWords ∧ j ≤ length typedWords) dp.
Proof.
  unfold build_table.
  destruct (init_column_known originalWords typedWords
              (length originalWords) (length typedWords))
    as (dp1 & -> & H1).
  destruct (init_row_known _ _ _ _ dp1 H1) as (dp2 & Hdp2 & H2).
  destruct (fill_known _ _ _ _ dp2 H2) as (dp3 & Hdp3 & H3).
  exists dp3. simpl. rewrite Hdp2. simpl. done.
Qed.

(** ** Marking *)

Lemma marks_are_nil marks : marks_are [] marks marks.
Proof.
  split; [done|]. intros k. rewrite decide_False; [done|].
  apply not_elem_of_nil.
Qed.

Lemma marks_are_cons p ps marks marks' marks'' :
  mark marks p = Some marks' →
  marks_are ps marks' marks'' →
  marks_are (p :: ps) marks marks''.
Proof.
  unfold mark. case_decide as Hp; [|done]. intros [= <-] [Hlen Hget].
  rewrite length_insert in Hlen. split; [done|].
  intros k. rewrite Hget. destruct (decide (k = p)) as [->|Hne].
  - rewrite (decide_True (P := p ∈ p :: ps)) by apply list_elem_of_here.
    case_decide; [done|]. by apply list_lookup_insert_eq.
  - rewrite list_lookup_insert_ne by done.
    destruct (decide (k ∈ ps)) as [Hin|Hnin].
    + rewrite decide_True; [done|]. by apply list_elem_of_further.
    + rewrite decide_False; [done|].
      intros [?|?]%elem_of_cons; done.
Qed.

Lemma marks_are_ext ps ps' marks marks' :
  (∀ k, k ∈ ps ↔ k ∈ ps') →
  marks_are ps marks marks' → marks_are ps' marks marks'.
Proof.
  intros Hiff [Hlen Hget]. split; [done|]. intros k. rewrite Hget.
  destruct (decide (k ∈ ps)) as [Hin|Hnin].
  - rewrite decide_True; [done|]. by apply Hiff.
  - rewrite decide_False; [done|]. by rewrite <- Hiff.
Qed.

(** Lines 63 and 64 mark the positions below [k]. *)
Lemma mark_rest_spec k marks :
  k ≤ length marks →
  ∃ marks', mark_rest k marks = Some marks' ∧ marks_are (seq 0 k) marks marks'.
Proof.
  revert marks. induction k as [|k IH]; intros marks Hk.
  - exists marks. split; [done|]. apply marks_are_nil.
  - destruct (mark_spec marks k ltac:(lia)) as (marks1 & Hmark & Hlen & _).
    destruct (IH marks1 ltac:(lia)) as (marks2 & Hrest & Hare).
    exists marks2. split.
    + cbn [mark_rest]. rewrite Hmark. done.
    + apply (marks_are_ext (k :: seq 0 k));
        [|by eapply marks_are_cons].
      intros p. rewrite elem_of_cons, !elem_of_seq. lia.
Qed.

(** A marking of an unmarked vector is the vector of its positions. *)
Lemma marks_are_vector len ps marks :
  marks_are ps (replicate len false) marks → marks = Spec.marks_vector len ps.
Proof.
  intros [Hlen Hget]. rewrite length_replicate in Hlen.
  apply list_eq. intros k. unfold Spec.marks_vector.
  rewrite list_lookup_fmap, Hget.
  destruct (decide (k < len)) as [Hk|Hk].
  - rewrite lookup_seq_lt by done. simpl.
    rewrite lookup_replicate_2 by done.
    by case_decide; [rewrite bool_decide_true|rewrite bool_decide_false].
  - rewrite lookup_seq_ge by lia. simpl.
    rewrite (proj1 (lookup_replicate_None len false k)) by lia.
    case_decide as Hin; [|done].
    specialize (Hget k). rewrite decide_True in Hget by done.
    apply lookup_lt_Some in Hget. lia.
Qed.

(** ** The traceback follows the specification's walk *)

Section TracebackCorrect.

Variables originalWords typedWords : list string.
Variable dp : list (list Z).

Local Abbreviation m := (length originalWords).
Local Abbreviation n := (length typedWords).
Local Abbreviation distance := (Spec.distance originalWords typedWords).
Local Abbreviation marked := (Spec.marked originalWords typedWords).

Hypothesis dp_known :
  known originalWords typedWords m n (λ i j, i ≤ m ∧ j ≤ n) dp.

Lemma marked_S_S i j :
  marked (S i) (S j) =
  if bool_decide (originalWords !! i = typedWords !! j) then marked i j
  else if bool_decide (distance (S i) (S j) = (distance i j + 1)%Z)
  then (i :: (marked i j).1, j :: (marked i j).2)
  else if bool_decide (distance (S i) (S j) = (distance i (S j) + 1)%Z)
  then (i :: (marked i (S j)).1, (marked i (S j)).2)
  else if bool_decide (distance (S i) (S j) = (distance (S i) j + 1)%Z)
  then ((marked (S i) j).1, j :: (marked (S i) j).2)
  else marked i j.
Proof. reflexivity. Qed.

(** On a mismatch the cell is one more than one of its neighbours. *)
Lemma mismatch_cases i j :
  originalWords !! i ≠ typedWords !! j →
  distance (S i) (S j) = (distance i j + 1)%Z ∨
  distance (S i) (S j) = (distance i (S j) + 1)%Z ∨
  distance (S i) (S j) = (distance (S i) j + 1)%Z.
Proof.
  intros Hne. rewrite distance_S_S, bool_decide_false by done. lia.
Qed.

(** The arm taken at an inner cell; it is never the fallback. *)
Lemma choose_branch_known i j :
  i < m → j < n →
  choose_branch originalWords typedWords dp (S i) (S j) =
  Some (if bool_decide (originalWords !! i = typedWords !! j) then Match
        else if bool_decide (distance (S i) (S j) = (distance i j + 1)%Z)
        then Substitution
        else if bool_decide
                  (distance (S i) (S j) = (distance i (S j) + 1)%Z)
        then Deletion
        else Insertion).
Proof.
  intros Hi Hj. destruct dp_known as [_ Hcells].
  unfold choose_branch, same_word. cbn [Nat.sub]. rewrite !Nat.sub_0_r.
  case_bool_decide as Hw; [done|].
  rewrite (Hcells (S i) (S j)), (Hcells i j) by lia. cbn [mbind option_bind].
  case_bool_decide as Hs; [done|].
  rewrite (Hcells i (S j)) by lia. cbn [mbind option_bind].
  case_bool_decide as Hd; [done|].
  rewrite (Hcells (S i) j) by lia. cbn [mbind option_bind].
  rewrite bool_decide_true; [done|].
  destruct (mismatch_cases i j Hw) as [?|[?|?]]; done.
Qed.

Lemma trace_loop_boundary fuel i j om tm :
  i = 0 ∨ j = 0 →
  trace_loop originalWords typedWords dp fuel (Cursor i j om tm) =
  Some (Cursor i j om tm).
Proof.
  intros Hij.
  assert (bool_decide (0 < i) && bool_decide (0 < j) = false) as Hcond.
  { destruct Hij as [-> | ->]; [done|]. apply andb_false_r. }
  destruct fuel; cbn [trace_loop cur_i cur_j]; by rewrite Hcond.
Qed.

(** The loop at line 45 and the two loops after it, from any state inside
    the table, mark what the specification's walk marks. *)
Lemma traceback_marked fuel i j om tm :
  i ≤ m → j ≤ n → i ≤ length om → j ≤ length tm → i + j ≤ fuel →
  ∃ st om' tm',
    trace_loop originalWords typedWords dp fuel (Cursor i j om tm) = Some st ∧
    mark_rest (cur_i st) (cur_original st) = Some om' ∧
    mark_rest (cur_j st) (cur_typed st) = Some tm' ∧
    marks_are (marked i j).1 om om' ∧
    marks_are (marked i j).2 tm tm'.
Proof.
  revert i j om tm.
  induction fuel as [|fuel IH]; intros i j om tm Hi Hj Hom Htm Hfuel.
  all: destruct i as [|i].
  1, 3: destruct (mark_rest_spec j tm Htm) as (tm' & Htm' & Hare);
    exists (Cursor 0 j om tm), om, tm';
    rewrite trace_loop_boundary by auto;
    split_and!; [done..| |]; first [exact Hare | apply marks_are_nil].
  all: destruct j as [|j].
  1, 3: destruct (mark_rest_spec (S i) om Hom) as (om' & Hom' & Hare);
    exists (Cursor (S i) 0 om tm), om', tm;
    rewrite trace_loop_boundary by auto;
    split_and!; [done..| |]; first [exact Hare | apply marks_are_nil].
  { lia. }
  cbn [trace_loop cur_i cur_j].
  rewrite !bool_decide_true by lia. cbn [andb].
  unfold trace_step. cbn [cur_i cur_j].
  rewrite choose_branch_known by lia. cbn [mbind option_bind].
  rewrite marked_S_S.
  destruct (mark_spec om i ltac:(lia)) as (om1 & Hom1 & Hlen1 & _).
  destruct (mark_spec tm j ltac:(lia)) as (tm1 & Htm1 & Hlen2 & _).
  case_bool_decide as Hw; [|case_bool_decide as Hs;
                             [|case_bool_decide as Hd]].
  - cbn [apply_branch Nat.sub]. rewrite !Nat.sub_0_r.
    apply IH; lia.
  - cbn [apply_branch Nat.sub]. rewrite !Nat.sub_0_r, Hom1, Htm1.
    cbn [mbind option_bind].
    destruct (IH i j om1 tm1)
    as (st & om' & tm' & Hloop & Ho & Ht & HAo & HAt);
      [lia..|].
    exists st, om', tm'. split_and!; try done.
    + eapply marks_are_cons; [exact Hom1 | apply HAo].
    + eapply marks_are_cons; [exact Htm1 | apply HAt].
  - cbn [apply_branch Nat.sub]. rewrite !Nat.sub_0_r, Hom1.
    cbn [mbind option_bind].
    destruct (IH i (S j) om1 tm)
    as (st & om' & tm' & Hloop & Ho & Ht & HAo & HAt);
      [lia..|].
    exists st, om', tm'. split_and!; try done.
    eapply marks_are_cons; [exact Hom1 | apply HAo].
  - rewrite bool_decide_true
      by (destruct (mismatch_cases i j Hw) as [?|[?|?]]; done).
    cbn [apply_branch Nat.sub]. rewrite !Nat.sub_0_r, Htm1.
    cbn [mbind option_bind].
    destruct (IH (S i) j om tm1)
    as (st & om' & tm' & Hloop & Ho & Ht & HAo & HAt);
      [lia..|].
    exists st, om', tm'. split_and!; try done.
    eapply marks_are_cons; [exact Htm1 | apply HAt].
Qed.

(** One iteration of the loop at line 45, inside the table, succeeds,
    stays inside the table and lowers [i] or [j]. *)
Lemma trace_step_decreases st :
  0 < cur_i st ≤ m → 0 < cur_j st ≤ n →
  cur_i st ≤ length (cur_original st) → cur_j st ≤ length (cur_typed st) →
  ∃ st', trace_step originalWords typedWords dp st = Some st' ∧
         cur_i st' ≤ cur_i st ∧ cur_j st' ≤ cur_j st ∧
         cur_i st' + cur_j st' < cur_i st + cur_j st ∧
         length (cur_original st') = length (cur_original st) ∧
         length (cur_typed st') = length (cur_typed st).
Proof.
  destruct st as [i j om tm]. cbn [cur_i cur_j cur_original cur_typed].
  intros Hi Hj Hom Htm.
  destruct i as [|i]; [lia|]. destruct j as [|j]; [lia|].
  unfold trace_step. cbn [cur_i cur_j].
  rewrite choose_branch_known by lia. cbn [mbind option_bind].
  destruct (mark_spec om i ltac:(lia)) as (om1 & Hom1 & Hlen1 & _).
  destruct (mark_spec tm j ltac:(lia)) as (tm1 & Htm1 & Hlen2 & _).
  repeat case_bool_decide; cbn [apply_branch Nat.sub];
    rewrite !Nat.sub_0_r, ?Hom1, ?Htm1; cbn [mbind option_bind];
    eexists; (split; [reflexivity|]);
    cbn [cur_i cur_j cur_original cur_typed]; lia.
Qed.

End TracebackCorrect.

(** ** [wordEditDistance] computes the specification's result *)

Lemma wordEditDistance_fuel_correct fuel originalWords typedWords :
  length originalWords + length typedWords ≤ fuel →
  wordEditDistance_fuel fuel originalWords typedWords =
  Some (Alignment
          (Spec.distance originalWords typedWords
             (length originalWords) (length typedWords))
          (Spec.reference_marks originalWords typedWords)
          (Spec.typed_marks originalWords typedWords)).
Proof.
  intros Hfuel. unfold wordEditDistance_fuel.
  destruct (build_table_correct originalWords typedWords)
    as (dp & -> & Hknown).
  cbn [mbind option_bind]. unfold start_cursor.
  destruct (traceback_marked originalWords typedWords dp Hknown fuel
              (length originalWords) (length typedWords)
              (replicate (length originalWords) false)
              (replicate (length typedWords) false))
    as (st & om & tm & Hloop & Horig & Htyped & Hom & Htm);
    rewrite ?length_replicate; try lia.
  rewrite Hloop. cbn [mbind option_bind].
  rewrite Horig. cbn [mbind option_bind].
  rewrite Htyped. cbn [mbind option_bind].
  destruct Hknown as [_ Hcells]. rewrite Hcells by lia.
  cbn [mbind option_bind].
  apply marks_are_vector in Hom, Htm. by subst.
Qed.

Lemma wordEditDistance_correct originalWords typedWords :
  wordEditDistance originalWords typedWords =
  Some (Alignment
          (Spec.distance originalWords typedWords
             (length originalWords) (length typedWords))
          (Spec.reference_marks originalWords typedWords)
          (Spec.typed_marks originalWords typedWords)).
Proof. by apply wordEditDistance_fuel_correct. Qed.

Lemma marks_vector_length len ps : length (Spec.marks_vector len ps) = len.
Proof. unfold Spec.marks_vector. by rewrite length_fmap, length_seq. Qed.

Lemma marks_vector_constant len ps b :
  (∀ k, k < len → bool_decide (k ∈ ps) = b) →
  Spec.marks_vector len ps = replicate len b.
Proof.
  intros Hb. apply list_eq. intros k. unfold Spec.marks_vector.
  rewrite list_lookup_fmap. destruct (decide (k < len)) as [Hk|Hk].
  - rewrite lookup_seq_lt, lookup_replicate_2 by done. simpl.
    by rewrite Hb.
  - rewrite lookup_seq_ge by lia.
    by rewrite (proj1 (lookup_replicate_None len b k)) by lia.
Qed.

Lemma marks_vector_all len :
  Spec.marks_vector len (seq 0 len) = replicate len true.
Proof.
  apply marks_vector_constant. intros k Hk.
  apply bool_decide_true, elem_of_seq. lia.
Qed.

Lemma marks_vector_none len : Spec.marks_vector len [] = replicate len false.
Proof.
  apply marks_vector_constant. intros k Hk.
  apply bool_decide_false, not_elem_of_nil.
Qed.

Lemma marked_0_r reference typed i :
  Spec.marked reference typed i 0 = (seq 0 i, []).
Proof. by destruct i. Qed.

Lemma marked_diag words i : Spec.marked words words i i = ([], []).
Proof.
  induction i as [|i IH]; [done|].
  rewrite marked_S_S, bool_decide_true by done. done.
Qed.

(** The states of the traceback stay inside the table. *)
Lemma visits_inside originalWords typedWords dp st :
  known originalWords typedWords (length originalWords) (length typedWords)
    (λ i j, i ≤ length originalWords ∧ j ≤ length typedWords) dp →
  visits originalWords typedWords dp
    (start_cursor (length originalWords) (length typedWords)) st →
  cur_i st ≤ length originalWords ∧ cur_j st ≤ length typedWords ∧
  length (cur_original st) = length originalWords ∧
  length (cur_typed st) = length typedWords.
Proof.
  intros Hknown Hvisits. induction Hvisits as [|st st' _ IH Hi Hj Hstep].
  - cbn [start_cursor cur_i cur_j cur_original cur_typed].
    by rewrite !length_replicate.
  - destruct IH as (Hi' & Hj' & Hom & Htm).
    destruct (trace_step_decreases _ _ _ Hknown st) as (st'' & Hstep' & ?);
      [lia..|].
    rewrite Hstep in Hstep'. injection Hstep' as <-. lia.
Qed.

(** * The claims *)

(** C1. For every reference and typed sequence, [wordEditDistance] returns
    as [errors] the token-level Levenshtein distance distance(m, n), where
    distance(i, 0) = i, distance(0, j) = j, and for i, j >= 1
    distance(i, j) = distance(i-1, j-1) when reference[i-1] and typed[j-1]
    are the same string, and 1 + min(distance(i-1, j-1), distance(i-1, j),
    distance(i, j-1)) otherwise. *)
Theorem wordEditDistance_errors_levenshtein (reference typed : list string) :
  let distance := Spec.distance reference typed in
  (∀ i, distance i 0 = Z.of_nat i) ∧
  (∀ j, distance 0 j = Z.of_nat j) ∧
  (∀ i j,
     distance (S i) (S j) =
     if bool_decide (reference !! i = typed !! j) then distance i j
     else (1 + Z.min (Z.min (distance i j) (distance i (S j)))
                     (distance (S i) j))%Z) ∧
  errors <$> wordEditDistance reference typed =
  Some (distance (length reference) (length typed)).
Proof.
  cbv zeta. split_and!.
  - apply distance_0_r.
  - apply distance_0_l.
  - apply distance_S_S.
  - by rewrite wordEditDistance_correct.
Qed.

(** The comparison of tokens is exact: a change of case is an error. *)
Example wordEditDistance_case_sensitive :
  wordEditDistance ["The"; "fox"] ["the"; "fox"] =
  Some (Alignment 1 [true; false] [true; false]).
Proof. vm_compute. reflexivity. Qed.

(** C2. For every pair of inputs the marks [wordEditDistance] returns are
    those of the specification's walk back from (m, n): a diagonal move
    without marks on a match; on a mismatch substitution first (both
    positions marked), then deletion (reference position marked), then
    insertion (typed position marked); at a boundary every remaining
    position of the surviving axis is marked. For the reference
    the/quick/brown/fox and the typed the/quikc/brown the result is 2
    errors, reference marks [false, true, false, true] and typed marks
    [false, true, false]. *)
Theorem traceback_follows_priority :
  (∀ reference typed : list string,
     let distance := Spec.distance reference typed in
     let marked := Spec.marked reference typed in
     (∀ j, marked 0 j = ([], seq 0 j)) ∧
     (∀ i, marked i 0 = (seq 0 i, [])) ∧
     (∀ i j,
        marked (S i) (S j) =
        if bool_decide (reference !! i = typed !! j) then marked i j
        else if bool_decide (distance (S i) (S j) = (distance i j + 1)%Z)
        then (i :: (marked i j).1, j :: (marked i j).2)
        else if bool_decide (distance (S i) (S j) = (distance i (S j) + 1)%Z)
        then (i :: (marked i (S j)).1, (marked i (S j)).2)
        else if bool_decide (distance (S i) (S j) = (distance (S i) j + 1)%Z)
        then ((marked (S i) j).1, j :: (marked (S i) j).2)
        else marked i j) ∧
     ∃ res,
       wordEditDistance reference typed = Some res ∧
       originalMark res =
       Spec.marks_vector (length reference)
         (marked (length reference) (length typed)).1 ∧
       typedMark res =
       Spec.marks_vector (length typed)
         (marked (length reference) (length typed)).2) ∧
  wordEditDistance ["the"; "quick"; "brown"; "fox"] ["the"; "quikc"; "brown"]
  = Some (Alignment 2 [false; true; false; true] [false; true; false]).
Proof.
  split.
  - intros reference typed. cbv zeta. split_and!.
    + done.
    + apply marked_0_r.
    + done.
    + eexists. split; [apply wordEditDistance_correct | done].
  - vm_compute. reflexivity.
Qed.

(** C3. With an empty reference, [errors] is the number of typed words,
    every typed position is marked and there are no reference marks; with
    an empty typed sequence, [errors] is the number of reference words and
    every reference position is marked; with both empty, [errors] is 0 and
    both marking vectors are empty. *)
Theorem wordEditDistance_empty_inputs :
  (∀ typed : list string,
     wordEditDistance [] typed =
     Some (Alignment (Z.of_nat (length typed)) []
             (replicate (length typed) true))) ∧
  (∀ reference : list string,
     wordEditDistance reference [] =
     Some (Alignment (Z.of_nat (length reference))
             (replicate (length reference) true) [])) ∧
  wordEditDistance [] [] = Some (Alignment 0 [] []).
Proof.
  split_and!.
  - intros typed. rewrite wordEditDistance_correct. do 2 f_equal.
    apply marks_vector_all.
  - intros reference. rewrite wordEditDistance_correct.
    rewrite distance_0_r. unfold Spec.reference_marks, Spec.typed_marks.
    cbn [length]. rewrite marked_0_r. cbn [fst snd].
    by rewrite marks_vector_all.
  - reflexivity.
Qed.

(** C5. At every iteration of the traceback loop the arm taken is not the
    fallback; where the current tokens differ, [dp[i][j]] is one more than
    [dp[i-1][j-1]], [dp[i-1][j]] or [dp[i][j-1]]. *)
Theorem fallback_never_taken (originalWords typedWords : list string)
    (dp : list (list Z)) (st : cursor) :
  build_table originalWords typedWords = Some dp →
  visits originalWords typedWords dp
    (start_cursor (length originalWords) (length typedWords)) st →
  0 < cur_i st → 0 < cur_j st →
  (∃ b, choose_branch originalWords typedWords dp (cur_i st) (cur_j st)
        = Some b ∧ b ≠ Fallback) ∧
  (same_word originalWords typedWords (cur_i st) (cur_j st) = false →
   ∃ here diag up left,
     Table.get dp (cur_i st) (cur_j st) = Some here ∧
     Table.get dp (cur_i st - 1) (cur_j st - 1) = Some diag ∧
     Table.get dp (cur_i st - 1) (cur_j st) = Some up ∧
     Table.get dp (cur_i st) (cur_j st - 1) = Some left ∧
     (here = (diag + 1)%Z ∨ here = (up + 1)%Z ∨ here = (left + 1)%Z)).
Proof.
  intros Hbuild Hvisits Hi Hj.
  destruct (build_table_correct originalWords typedWords)
    as (dp' & Hbuild' & Hknown).
  rewrite Hbuild in Hbuild'. injection Hbuild' as <-.
  destruct (visits_inside _ _ _ _ Hknown Hvisits) as (Hi' & Hj' & _).
  destruct st as [i j om tm]. cbn [cur_i cur_j] in *.
  destruct i as [|i]; [lia|]. destruct j as [|j]; [lia|]. split.
  - rewrite (choose_branch_known _ _ _ Hknown) by lia.
    eexists. split; [done|]. by repeat case_bool_decide.
  - unfold same_word. cbn [Nat.sub]. rewrite !Nat.sub_0_r.
    intros Hw%bool_decide_eq_false.
    destruct Hknown as [_ Hcells].
    do 4 eexists. split_and!; [apply Hcells; lia..|].
    by apply mismatch_cases.
Qed.

Lemma fallback_never_taken_witness :
  ∃ dp, build_table ["a"; "b"] ["a"; "c"] = Some dp ∧
        ∃ b, choose_branch ["a"; "b"] ["a"; "c"] dp 2 2 = Some b ∧
             b ≠ Fallback.
Proof.
  eexists. split; [vm_compute; reflexivity|].
  apply (fallback_never_taken ["a"; "b"] ["a"; "c"] _ (start_cursor 2 2)).
  - vm_compute. reflexivity.
  - apply visits_start.
  - simpl. lia.
  - simpl. lia.
Defined.

(** C6. The scalar result is symmetric: exchanging the two sequences does
    not change [errors]. *)
Theorem wordEditDistance_errors_symmetric (A B : list string) :
  errors <$> wordEditDistance A B = errors <$> wordEditDistance B A.
Proof.
  rewrite !wordEditDistance_correct. cbn. by rewrite distance_sym.
Qed.

(** C7. [errors] is at most the length of the longer sequence. *)
Theorem wordEditDistance_errors_le_max (A B : list string) :
  ∃ res, wordEditDistance A B = Some res ∧
         (errors res ≤ Z.of_nat (length A `max` length B))%Z.
Proof.
  eexists. split; [apply wordEditDistance_correct|].
  cbn [errors]. apply distance_le_max.
Qed.

(** C8. A sequence aligned with itself gives 0 errors and no marks. *)
Theorem wordEditDistance_identical (A : list string) :
  wordEditDistance A A =
  Some (Alignment 0 (replicate (length A) false) (replicate (length A) false)).
Proof.
  rewrite wordEditDistance_correct, distance_diag.
  unfold Spec.reference_marks, Spec.typed_marks.
  rewrite marked_diag. cbn [fst snd]. by rewrite marks_vector_none.
Qed.

(** C9. [wordEditDistance] returns a result for every pair of sequences:
    the table is built without a read or write out of range, every
    iteration of the traceback loop succeeds and lowers [i] or [j] (neither
    grows), so [m + n] iterations or more are enough, and the marking
    vectors have lengths [m] and [n]. *)
Theorem wordEditDistance_always_returns
    (originalWords typedWords : list string) :
  ∃ dp res,
    build_table originalWords typedWords = Some dp ∧
    wordEditDistance originalWords typedWords = Some res ∧
    length (originalMark res) = length originalWords ∧
    length (typedMark res) = length typedWords ∧
    (∀ fuel, length originalWords + length typedWords ≤ fuel →
             wordEditDistance_fuel fuel originalWords typedWords = Some res) ∧
    (∀ st,
       visits originalWords typedWords dp
         (start_cursor (length originalWords) (length typedWords)) st →
       0 < cur_i st → 0 < cur_j st →
       ∃ st', trace_step originalWords typedWords dp st = Some st' ∧
              (cur_i st' < cur_i st ∧ cur_j st' ≤ cur_j st ∨
               cur_i st' ≤ cur_i st ∧ cur_j st' < cur_j st)).
Proof.
  destruct (build_table_correct originalWords typedWords)
    as (dp & Hbuild & Hknown).
  exists dp. eexists. split_and!.
  - done.
  - apply wordEditDistance_correct.
  - apply marks_vector_length.
  - apply marks_vector_length.
  - intros fuel Hfuel. by apply wordEditDistance_fuel_correct.
  - intros st Hvisits Hi Hj.
    destruct (visits_inside _ _ _ _ Hknown Hvisits) as (Hi' & Hj' & Hom & Htm).
    destruct (trace_step_decreases _ _ _ Hknown st)
      as (st' & Hstep & ? & ? & ? & _); [lia..|].
    exists st'. split; [done|]. lia.
Qed.

Lemma wordEditDistance_always_returns_witness :
  ∃ dp res,
    build_table ["a"; "a"] ["a"; "a"; "a"] = Some dp ∧
    wordEditDistance_fuel 9 ["a"; "a"] ["a"; "a"; "a"] = Some res ∧
    ∃ st', trace_step ["a"; "a"] ["a"; "a"; "a"] dp (start_cursor 2 3)
           = Some st' ∧
           (cur_i st' < 2 ∧ cur_j st' ≤ 3 ∨ cur_i st' ≤ 2 ∧ cur_j st' < 3).
Proof.
  destruct (wordEditDistance_always_returns ["a"; "a"] ["a"; "a"; "a"])
    as (dp & res & Hbuild & _ & _ & _ & Hfuel & Hstep).
  exists dp, res. split_and!.
  - exact Hbuild.
  - apply Hfuel. simpl. lia.
  - apply (Hstep (start_cursor 2 3)).
    + apply visits_start.
    + simpl. lia.
    + simpl. lia.
Defined.

(** ** The scoring arithmetic *)

Lemma js_div_by_zero z :
  js_div (js_of_Z z) (js_of_Z 0) =
  if decide (z = 0%Z) then NaN
  else if decide (0 < z)%Z then PosInfinity else NegInfinity.
Proof. by destruct z. Qed.

Lemma js_or_positive t d : (0 < t)%Q → js_or (Finite t) d = Finite t.
Proof.
  intros Ht. unfold js_or.
  destruct (Qeq_bool t 0) eqn:Heq; [|done].
  apply Qeq_bool_iff in Heq. rewrite Heq in Ht. by apply Qlt_irrefl in Ht.
Qed.

Lemma js_div_negative_positive z t :
  (z < 0)%Z → (0 < t)%Q →
  ∃ q, js_div (js_of_Z z) (Finite t) = Finite q ∧ Qle_bool 0 q = false.
Proof.
  intros Hz Ht. unfold js_div, js_of_Z.
  destruct (Qeq_bool t 0) eqn:Heq.
  { apply Qeq_bool_iff in Heq. rewrite Heq in Ht. by apply Qlt_irrefl in Ht. }
  eexists. split; [done|].
  destruct (Qle_bool 0 (inject_Z z / t)) eqn:Hle; [|done].
  apply Qle_bool_iff in Hle. exfalso.
  apply (Qmult_le_compat_r _ _ t) in Hle; [|by apply Qlt_le_weak].
  rewrite Qmult_0_l, Qmult_comm, Qmult_div_r in Hle
    by (intros Heq0; rewrite Heq0 in Ht; by apply Qlt_irrefl in Ht).
  unfold Qle, inject_Z in Hle. simpl in Hle. lia.
Qed.

(** With an empty typed sequence [showResult] divides by zero: the
    accuracy it shows and appends to the history is not a number (it is
    NaN or an infinity), whatever the passage and the elapsed time. The
    division at line 197 has no guard, unlike the elapsed time at
    line 186. *)
Lemma accuracy_unguarded_when_nothing_typed
    (tokenize : string → list string) (passage typed : string)
    (storedTime : jsnum) (history : list History.record) :
  tokenize typed = [] →
  ∃ history' shown saved,
    showResult tokenize passage typed storedTime history
    = Some (history', shown) ∧
    last history' = Some saved ∧
    is_number (shown_accuracy shown) = false ∧
    is_number (History.accuracy saved) = false.
Proof.
  intros Htyped. unfold showResult. rewrite Htyped.
  rewrite wordEditDistance_correct. cbn [mbind option_bind errors length].
  rewrite distance_0_r. do 3 eexists. split; [done|]. split.
  - unfold saveHistoryRecord. apply last_snoc.
  - cbn [shown_accuracy History.accuracy]. change (Z.of_nat 0) with 0%Z.
    rewrite js_div_by_zero.
    by repeat case_decide.
Qed.

(** C4. The accuracy computation is not guarded when nothing was typed:
    the passage "hello world" submitted with an empty text after half a
    minute is saved and shown with accuracy -Infinity. *)
Example showResult_nothing_typed :
  showResult ascii_tokenize "hello world" "" (Finite (1 # 2)) [] =
  Some ([History.Record "hello world" "" (FixedDecimal false 0)
           (FixedDecimal true 400) (FixedInfinity true) 2],
        Display (FixedDecimal false 0) (FixedDecimal true 400)
          (FixedInfinity true) 2).
Proof. vm_compute. reflexivity. Qed.

(** C10. There are inputs with a non-empty typed sequence for which
    [errors] exceeds the number of typed words: a three-word reference
    a/b/c against the single typed word x gives 3 errors for 1 typed word,
    and for any positive elapsed time the net WPM and the accuracy that
    [showResult] shows and saves are negative. *)
Theorem metrics_can_be_negative
    (tokenize : string → list string) (passage typed : string)
    (t : Q) (history : list History.record) :
  tokenize passage = ["a"; "b"; "c"] →
  tokenize typed = ["x"] →
  (0 < t)%Q →
  errors <$> wordEditDistance (tokenize passage) (tokenize typed) = Some 3%Z ∧
  length (tokenize typed) = 1 ∧
  ∃ history' shown saved,
    showResult tokenize passage typed (Finite t) history
    = Some (history', shown) ∧
    last history' = Some saved ∧
    is_negative (shown_netWPM shown) = true ∧
    is_negative (shown_accuracy shown) = true ∧
    is_negative (History.netWPM saved) = true ∧
    is_negative (History.accuracy saved) = true.
Proof.
  intros Hpassage Htyped Ht.
  assert (wordEditDistance ["a"; "b"; "c"] ["x"] =
          Some (Alignment 3 [true; true; true] [true])) as Hres
    by (vm_compute; reflexivity).
  unfold showResult. rewrite Hpassage, Htyped, Hres.
  split; [done|]. split; [done|].
  cbn [mbind option_bind errors length].
  do 3 eexists. split; [done|]. split.
  { unfold saveHistoryRecord. apply last_snoc. }
  cbn [shown_netWPM shown_accuracy History.netWPM History.accuracy].
  rewrite js_or_positive by done.
  destruct (js_div_negative_positive (Z.of_nat 1 - 3) t) as (q & -> & Hq);
    [lia | done |].
  cbn [toFixed2 is_negative]. rewrite Hq. done.
Qed.

Lemma metrics_can_be_negative_witness :
  errors <$> wordEditDistance (ascii_tokenize "a b c") (ascii_tokenize "x")
  = Some 3%Z ∧
  length (ascii_tokenize "x") = 1 ∧
  ∃ history' shown saved,
    showResult ascii_tokenize "a b c" "x" (Finite (1 # 2)) []
    = Some (history', shown) ∧
    last history' = Some saved ∧
    is_negative (shown_netWPM shown) = true ∧
    is_negative (shown_accuracy shown) = true ∧
    is_negative (History.netWPM saved) = true ∧
    is_negative (History.accuracy saved) = true.
Proof.
  apply (metrics_can_be_negative ascii_tokenize "a b c" "x" (1 # 2) []).
  - reflexivity.
  - reflexivity.
  - reflexivity.
Defined.

(** * Further properties of the aligner *)

(** ** Neighbouring cells of the table differ by at most one *)

Section Adjacent.

Variables reference typed : list string.

Local Abbreviation distance := (Spec.distance reference typed).

Lemma column_step_from_row i :
  (∀ j, row_step reference typed i j) → ∀ j, column_step reference typed i j.
Proof.
  intros Hrow j. induction j as [|j [IHa IHc]].
  - unfold column_step. rewrite !distance_0_r. lia.
  - destruct (Hrow j) as [Hb Hd]. unfold column_step.
    rewrite distance_S_S. case_bool_decide; lia.
Qed.

Lemma row_step_next i :
  (∀ j, row_step reference typed i j) →
  (∀ j, column_step reference typed i j) →
  ∀ j, row_step reference typed (S i) j.
Proof.
  intros Hrow Hcol j.
  destruct (Hrow j) as [Hb Hd]. destruct (Hcol j) as [Ha Hc].
  unfold row_step. rewrite distance_S_S. case_bool_decide; lia.
Qed.

Lemma distance_adjacent i j :
  row_step reference typed i j ∧ column_step reference typed i j.
Proof.
  assert (∀ i, (∀ j, row_step reference typed i j) ∧
               (∀ j, column_step reference typed i j)) as Hall.
  { clear i j. intros i. induction i as [|i [IHrow IHcol]].
    - assert (∀ j, row_step reference typed 0 j) as Hrow.
      { intros j. unfold row_step. rewrite !distance_0_l. lia. }
      split; [done|]. by apply column_step_from_row.
    - assert (∀ j, row_step reference typed (S i) j) as Hrow
        by by apply row_step_next.
      split; [done|]. by apply column_step_from_row. }
  destruct (Hall i) as [Hrow Hcol]. done.
Qed.

(** The distance is at least the difference of the two lengths. *)
Lemma distance_ge_difference i j :
  (Z.of_nat i - Z.of_nat j ≤ distance i j)%Z ∧
  (Z.of_nat j - Z.of_nat i ≤ distance i j)%Z.
Proof.
  split.
  - induction j as [|j IH]; [rewrite distance_0_r; lia|].
    destruct (distance_adjacent i j) as [[_ ?] _]. lia.
  - induction i as [|i IH]; [rewrite distance_0_l; lia|].
    destruct (distance_adjacent i j) as [_ [_ ?]]. lia.
Qed.

(** A zero distance means equal prefixes. *)
Lemma distance_zero_take i j :
  i ≤ length reference → j ≤ length typed →
  distance i j = 0%Z → take i reference = take j typed.
Proof.
  revert j. induction i as [|i IH]; intros j Hi Hj Hzero.
  - rewrite distance_0_l in Hzero. by replace j with 0 by lia.
  - destruct j as [|j]; [rewrite distance_0_r in Hzero; lia|].
    rewrite distance_S_S in Hzero. case_bool_decide as Hw.
    + destruct (lookup_lt_is_Some_2 reference i ltac:(lia)) as [a Ha].
      destruct (lookup_lt_is_Some_2 typed j ltac:(lia)) as [b Hb].
      rewrite (take_S_r _ _ _ Ha), (take_S_r _ _ _ Hb).
      rewrite (IH j) by (done || lia). congruence.
    + pose proof (distance_nonneg reference typed i j).
      pose proof (distance_nonneg reference typed i (S j)).
      pose proof (distance_nonneg reference typed (S i) j). lia.
Qed.

End Adjacent.

(** The cells inside the table do not depend on what follows the two
    sequences. *)
Lemma distance_app reference typed reference' typed' i j :
  i ≤ length reference → j ≤ length typed →
  Spec.distance (reference ++ reference') (typed ++ typed') i j =
  Spec.distance reference typed i j.
Proof.
  revert j. induction i as [|i IHi]; intros j Hi Hj; [done|].
  induction j as [|j IHj]; [by rewrite !distance_0_r|].
  rewrite !distance_S_S, IHj, !IHi by lia.
  by rewrite !lookup_app_l by lia.
Qed.

Lemma distance_row_le reference typed i j k :
  (Spec.distance reference typed i (j + k)
   ≤ Spec.distance reference typed i j + Z.of_nat k)%Z.
Proof.
  induction k as [|k IH]; [rewrite Nat.add_0_r; lia|].
  destruct (distance_adjacent reference typed i (j + k)) as [[? _] _].
  replace (j + S k) with (S (j + k)) by lia. lia.
Qed.

Lemma distance_column_le reference typed i j k :
  (Spec.distance reference typed (i + k) j
   ≤ Spec.distance reference typed i j + Z.of_nat k)%Z.
Proof.
  induction k as [|k IH]; [rewrite Nat.add_0_r; lia|].
  destruct (distance_adjacent reference typed (i + k) j) as [_ [? _]].
  replace (i + S k) with (S (i + k)) by lia. lia.
Qed.

Lemma length_filter_all {A} (P : A → Prop) `{∀ x, Decision (P x)} (l : list A) :
  (∀ x, x ∈ l → P x) → length (filter P l) = length l.
Proof.
  induction l as [|x l IH]; intros Hall; [done|].
  rewrite filter_cons_True by apply Hall, list_elem_of_here.
  cbn [length]. rewrite IH; [done|].
  intros y Hy. by apply Hall, list_elem_of_further.
Qed.

(** On the diagonal the distance is at most the number of positions that
    differ. *)
Lemma distance_diag_le_mismatches (A B : list string) i :
  (Spec.distance A B i i
   ≤ Z.of_nat (length (filter (λ k, A !! k ≠ B !! k) (seq 0 i))))%Z.
Proof.
  induction i as [|i IH]; [done|].
  rewrite seq_S, filter_app, length_app, filter_singleton by exact [].
  rewrite distance_S_S. cbn [Nat.add].
  destruct (distance_adjacent A B i i) as [[_ ?] [_ ?]].
  case_bool_decide as Hw.
  - rewrite decide_False by (intros Hne; by apply Hne). cbn [length]. lia.
  - rewrite decide_True by done. cbn [length]. lia.
Qed.

(** X1. [errors] is 0 exactly when the typed words are the reference
    words. *)
Theorem errors_zero_iff_equal (A B : list string) :
  errors <$> wordEditDistance A B = Some 0%Z ↔ A = B.
Proof.
  rewrite wordEditDistance_correct. cbn. split.
  - intros [= Hzero]. apply distance_zero_take in Hzero; [|done..].
    by rewrite !take_ge in Hzero by done.
  - intros ->. by rewrite distance_diag.
Qed.

(** X2. [errors] is at least the difference between the numbers of
    reference and typed words. *)
Theorem errors_ge_length_difference (A B : list string) :
  ∃ res, wordEditDistance A B = Some res ∧
         (Z.abs (Z.of_nat (length A) - Z.of_nat (length B)) ≤ errors res)%Z.
Proof.
  eexists. split; [apply wordEditDistance_correct|]. cbn [errors].
  destruct (distance_ge_difference A B (length A) (length B)). lia.
Qed.

(** X3. [errors] never exceeds what a comparison position by position
    would count: the positions at which the two sequences differ, those
    past the end of the shorter one included. *)
Theorem errors_le_mismatched_positions (A B : list string) :
  ∃ res, wordEditDistance A B = Some res ∧
         (errors res ≤ Z.of_nat (mismatched_positions A B))%Z.
Proof.
  eexists. split; [apply wordEditDistance_correct|]. cbn [errors].
  unfold mismatched_positions.
  set (P := λ k, A !! k ≠ B !! k).
  destruct (decide (length A ≤ length B)) as [Hle|Hgt].
  - replace (length A `max` length B)
      with (length A + (length B - length A)) by lia.
    rewrite seq_app, filter_app, length_app. cbn [Nat.add].
    rewrite (length_filter_all P (seq (length A) _)), length_seq.
    + pose proof (distance_diag_le_mismatches A B (length A)).
      pose proof (distance_row_le A B (length A) (length A)
                    (length B - length A)) as Hrow.
      replace (length A + (length B - length A)) with (length B)
        in Hrow by lia.
      fold P in H. lia.
    + intros k [Hk1 Hk2]%elem_of_seq. unfold P.
      rewrite (lookup_ge_None_2 A k) by lia.
      destruct (lookup_lt_is_Some_2 B k ltac:(lia)) as [b ->]. done.
  - replace (length A `max` length B)
      with (length B + (length A - length B)) by lia.
    rewrite seq_app, filter_app, length_app. cbn [Nat.add].
    rewrite (length_filter_all P (seq (length B) _)), length_seq.
    + pose proof (distance_diag_le_mismatches A B (length B)).
      pose proof (distance_column_le A B (length B) (length B)
                    (length A - length B)) as Hcol.
      replace (length B + (length A - length B)) with (length A)
        in Hcol by lia.
      fold P in H. lia.
    + intros k [Hk1 Hk2]%elem_of_seq. unfold P.
      rewrite (lookup_ge_None_2 B k) by lia.
      destruct (lookup_lt_is_Some_2 A k ltac:(lia)) as [a ->]. done.
Qed.

Lemma distance_snoc (A B : list string) w :
  Spec.distance (A ++ [w]) (B ++ [w]) (S (length A)) (S (length B)) =
  Spec.distance A B (length A) (length B).
Proof.
  rewrite distance_S_S, !list_lookup_middle by done.
  rewrite bool_decide_true by done. by apply distance_app.
Qed.

(** X4. A common ending does not change [errors]: words that follow both
    sequences unchanged are free. *)
Theorem errors_common_suffix (A B S : list string) :
  errors <$> wordEditDistance (A ++ S) (B ++ S) =
  errors <$> wordEditDistance A B.
Proof.
  rewrite !wordEditDistance_correct. cbn. f_equal.
  induction S as [|w S IH] using rev_ind.
  - by rewrite !app_nil_r.
  - rewrite !app_assoc, !(length_app _ [w]). cbn [length].
    rewrite !Nat.add_1_r, distance_snoc. done.
Qed.

(** X5. One more typed word, or one more reference word, changes [errors]
    by at most one. *)
Theorem errors_one_more_word (A B : list string) (w : string) :
  ∃ res res_typed res_reference,
    wordEditDistance A B = Some res ∧
    wordEditDistance A (B ++ [w]) = Some res_typed ∧
    wordEditDistance (A ++ [w]) B = Some res_reference ∧
    (Z.abs (errors res_typed - errors res) ≤ 1)%Z ∧
    (Z.abs (errors res_reference - errors res) ≤ 1)%Z.
Proof.
  do 3 eexists. split_and!; [apply wordEditDistance_correct..| |];
    cbn [errors]; rewrite length_app, Nat.add_1_r.
  - destruct (distance_adjacent A (B ++ [w]) (length A) (length B))
      as [[? ?] _].
    pose proof (distance_app A B [] [w] (length A) (length B)) as Heq.
    rewrite app_nil_r in Heq. rewrite <- Heq by done. lia.
  - destruct (distance_adjacent (A ++ [w]) B (length A) (length B))
      as [_ [? ?]].
    pose proof (distance_app A B [w] [] (length A) (length B)) as Heq.
    rewrite app_nil_r in Heq. rewrite <- Heq by done. lia.
Qed.

(** ** What the marks count *)

(** The specification's walk from [(i, j)] marks each position once, only
    positions before [i] and [j], and pays one error per step that marks. *)
Lemma marked_counts (reference typed : list string) i j :
  let ps := (Spec.marked reference typed i j).1 in
  let qs := (Spec.marked reference typed i j).2 in
  let d := Spec.distance reference typed i j in
  (NoDup ps ∧ ∀ p, p ∈ ps → p < i) ∧
  (NoDup qs ∧ ∀ q, q ∈ qs → q < j) ∧
  (Z.of_nat (length ps) ≤ d)%Z ∧
  (Z.of_nat (length qs) ≤ d)%Z ∧
  (d ≤ Z.of_nat (length ps + length qs))%Z ∧
  i + length qs = j + length ps.
Proof.
  cbv zeta. revert j. induction i as [|i IHi]; intros j.
  { cbn [Spec.marked fst snd]. rewrite distance_0_l, length_seq.
    split_and!; cbn [length]; try lia;
      try apply NoDup_nil_2; try apply NoDup_seq.
    - by intros p ?%not_elem_of_nil.
    - intros q ?%elem_of_seq. lia. }
  induction j as [|j IHj].
  { rewrite marked_0_r, distance_0_r. cbn [fst snd]. rewrite length_seq.
    split_and!; cbn [length]; try lia;
      try apply NoDup_nil_2; try apply NoDup_seq.
    - intros p ?%elem_of_seq. lia.
    - by intros q ?%not_elem_of_nil. }
  rewrite marked_S_S.
  pose proof (distance_S_S reference typed i j) as Hrec.
  case_bool_decide as Hw.
  { destruct (IHi j) as ([? Hps] & [? Hqs] & ? & ? & ? & ?).
    rewrite Hrec. split_and!; try done; try lia.
    - intros p ?%Hps. lia.
    - intros q ?%Hqs. lia. }
  clear Hrec. case_bool_decide as Hs.
  { destruct (IHi j) as ([? Hps] & [? Hqs] & ? & ? & ? & ?).
    rewrite Hs. cbn [fst snd length]. split_and!; try lia.
    - apply NoDup_cons_2; [|done]. intros ?%Hps. lia.
    - intros p [->|?%Hps]%elem_of_cons; lia.
    - apply NoDup_cons_2; [|done]. intros ?%Hqs. lia.
    - intros q [->|?%Hqs]%elem_of_cons; lia. }
  case_bool_decide as Hd.
  { destruct (IHi (S j)) as ([? Hps] & [? Hqs] & ? & ? & ? & ?).
    rewrite Hd. cbn [fst snd length]. split_and!; try done; try lia.
    - apply NoDup_cons_2; [|done]. intros ?%Hps. lia.
    - intros p [->|?%Hps]%elem_of_cons; lia. }
  rewrite bool_decide_true
    by (destruct (mismatch_cases reference typed i j Hw) as [?|[?|?]]; done).
  destruct IHj as ([? Hps] & [? Hqs] & ? & ? & ? & ?).
  destruct (mismatch_cases reference typed i j Hw) as [?|[?|Hi]]; [done..|].
  rewrite Hi. cbn [fst snd length]. split_and!; try done; try lia.
  - apply NoDup_cons_2; [|done]. intros ?%Hqs. lia.
  - intros q [->|?%Hqs]%elem_of_cons; lia.
Qed.

Lemma count_marked_fmap {A} (P : A → Prop) `{∀ x, Decision (P x)}
    (l : list A) :
  count_marked ((λ x, bool_decide (P x)) <$> l) = length (filter P l).
Proof.
  unfold count_marked. induction l as [|x l IH]; [done|].
  rewrite fmap_cons. destruct (decide (P x)) as [HP|HP].
  - rewrite bool_decide_true, !filter_cons_True by done.
    cbn [length]. by rewrite IH.
  - rewrite bool_decide_false, !filter_cons_False by done. done.
Qed.

(** A marking vector has as many marks as it has marked positions. *)
Lemma count_marked_vector len (ps : list nat) :
  NoDup ps → (∀ p, p ∈ ps → p < len) →
  count_marked (Spec.marks_vector len ps) = length ps.
Proof.
  intros Hnodup Hlt. unfold Spec.marks_vector.
  rewrite (count_marked_fmap (λ k, k ∈ ps)).
  apply Permutation_length, NoDup_Permutation;
    [apply NoDup_filter, NoDup_seq | done |].
  intros k. rewrite list_elem_of_filter, elem_of_seq. split.
  - by intros [? _].
  - intros Hk. split; [done|]. apply Hlt in Hk. lia.
Qed.

(** X6. The words marked on either side are never more than [errors],
    [errors] is never more than the marked words of both sides together,
    and the two sides have the same number of unmarked words (the length
    of one side plus the marks of the other is the same both ways). *)
Theorem marks_account_for_errors (originalWords typedWords : list string) :
  ∃ res,
    wordEditDistance originalWords typedWords = Some res ∧
    (Z.of_nat (count_marked (originalMark res)) ≤ errors res)%Z ∧
    (Z.of_nat (count_marked (typedMark res)) ≤ errors res)%Z ∧
    (errors res ≤ Z.of_nat (count_marked (originalMark res)
                            + count_marked (typedMark res)))%Z ∧
    length originalWords + count_marked (typedMark res) =
    length typedWords + count_marked (originalMark res).
Proof.
  eexists. split; [apply wordEditDistance_correct|].
  cbn [errors originalMark typedMark].
  unfold Spec.reference_marks, Spec.typed_marks.
  destruct (marked_counts originalWords typedWords
              (length originalWords) (length typedWords))
    as ([? ?] & [? ?] & ? & ? & ? & ?).
  rewrite !count_marked_vector by done. lia.
Qed.

(** * Further properties of the scoring *)


(** The accuracy of line 197 when [c > 0] words were typed with [e]
    errors: its sign, its range and its value without errors. *)
Lemma accuracy_value (c e : Z) :
  (0 < c)%Z → (0 ≤ e)%Z →
  ∃ negative hundredths,
    toFixed2 (js_mul (js_div (js_of_Z (c - e)) (js_of_Z c)) (js_of_Z 100))
    = FixedDecimal negative hundredths ∧
    (negative = true ↔ (c < e)%Z) ∧
    (negative = false → (0 ≤ hundredths ≤ 10000)%Z) ∧
    (e = 0%Z → hundredths = 10000%Z).
Proof.
  intros Hc He. destruct c as [|p|p]; try lia.
  unfold js_div, js_of_Z. cbn [Qeq_bool inject_Z Qnum Qden Z.mul].
  cbn [js_mul toFixed2]. do 2 eexists. split; [done|].
  unfold Qle_bool, Qdiv, Qmult, Qinv, Qabs, Qplus, Qfloor.
  cbn [Qnum Qden inject_Z].
  rewrite ?Pos.mul_1_l, ?Pos.mul_1_r, ?Z.mul_1_r, ?Z.mul_1_l, Z.mul_0_l.
  rewrite Pos2Z.inj_mul.
  split_and!.
  - destruct (Z.leb_spec 0 ((Z.pos p - e) * 100)); cbn [negb]; split;
      (done || lia).
  - destruct (Z.leb_spec 0 ((Z.pos p - e) * 100)); cbn [negb]; [|done].
    intros _. split.
    + apply Z.div_pos; lia.
    + apply Z.lt_succ_r, Z.div_lt_upper_bound; lia.
  - intros ->. symmetry. apply (Z.div_unique _ _ _ (Z.pos p)); lia.
Qed.


(** X8. The accuracy shown is a number exactly when something was typed;
    it then carries a minus sign exactly when there are more errors than
    typed words, and otherwise lies between 0.00 and 100.00. *)
Theorem accuracy_number_iff_typed
    (tokenize : string → list string) (passage typed : string)
    (storedTime : jsnum) (history : list History.record) :
  ∃ history' shown,
    showResult tokenize passage typed storedTime history
    = Some (history', shown) ∧
    (is_number (shown_accuracy shown) = true ↔ tokenize typed ≠ []) ∧
    (tokenize typed ≠ [] →
     (is_negative (shown_accuracy shown) = true ↔
      (Z.of_nat (length (tokenize typed)) < shown_errors shown)%Z)) ∧
    ∀ negative hundredths,
      shown_accuracy shown = FixedDecimal negative hundredths →
      negative = false → (0 ≤ hundredths ≤ 10000)%Z.
Proof.
  unfold showResult. rewrite wordEditDistance_correct.
  cbn [mbind option_bind errors]. do 2 eexists. split; [done|].
  cbn [shown_accuracy shown_errors].
  destruct (tokenize typed) as [|w ws] eqn:Htyped.
  - cbn [length]. rewrite distance_0_r. change (Z.of_nat 0) with 0%Z.
    rewrite js_div_by_zero. split_and!.
    + split; [|done]. by repeat case_decide.
    + done.
    + intros negative hundredths. by repeat case_decide.
  - set (c := Z.of_nat (length (w :: ws))).
    set (e := Spec.distance (tokenize passage) (w :: ws)
                (length (tokenize passage)) (length (w :: ws))).
    destruct (accuracy_value c e) as (neg & h & -> & Hneg & Hrange & _).
    { unfold c. cbn [length]. lia. }
    { apply distance_nonneg. }
    cbn [is_number is_negative]. split_and!.
    + done.
    + done.
    + intros negative hundredths [= <- <-]. done.
Qed.

Lemma accuracy_number_iff_typed_witness :
  ∃ history' shown,
    showResult ascii_tokenize "a b c d" "a x c d" (Finite (1 # 2)) []
    = Some (history', shown) ∧
    (is_negative (shown_accuracy shown) = true ↔
     (Z.of_nat (length (ascii_tokenize "a x c d")) < shown_errors shown)%Z) ∧
    ∃ hundredths,
      shown_accuracy shown = FixedDecimal false hundredths ∧
      (0 ≤ hundredths ≤ 10000)%Z.
Proof.
  destruct (accuracy_number_iff_typed ascii_tokenize "a b c d" "a x c d"
              (Finite (1 # 2)) [])
    as (history' & shown & Hshow & _ & Hsign & Hrange).
  exists history', shown. split_and!.
  - exact Hshow.
  - apply Hsign. discriminate.
  - vm_compute in Hshow. injection Hshow as _ <-.
    eexists. split; [reflexivity|].
    apply (Hrange false); reflexivity.
Defined.

(** X9. A transcript whose words are exactly those of a non-empty passage
    is shown with 0 errors, an accuracy of 100.00 and a net WPM equal to
    the gross WPM. *)
Theorem showResult_perfect_transcript
    (tokenize : string → list string) (passage typed : string)
    (storedTime : jsnum) (history : list History.record) :
  tokenize typed = tokenize passage →
  tokenize passage ≠ [] →
  ∃ history' shown,
    showResult tokenize passage typed storedTime history
    = Some (history', shown) ∧
    shown_errors shown = 0%Z ∧
    shown_accuracy shown = FixedDecimal false 10000 ∧
    shown_netWPM shown = shown_grossWPM shown.
Proof.
  intros Hsame Hwords. unfold showResult.
  rewrite wordEditDistance_correct, Hsame.
  cbn [mbind option_bind errors]. rewrite distance_diag, Z.sub_0_r.
  do 2 eexists. split; [done|].
  cbn [shown_errors shown_accuracy shown_netWPM shown_grossWPM].
  split_and!; try done.
  destruct (accuracy_value (Z.of_nat (length (tokenize passage))) 0)
    as (neg & h & Hacc & Hneg & _ & Hfull).
  { destruct (tokenize passage); [done | cbn [length]; lia]. }
  { done. }
  rewrite Z.sub_0_r in Hacc. rewrite Hacc, Hfull by done.
  destruct neg; [|done]. destruct Hneg as [Hneg _].
  specialize (Hneg eq_refl). lia.
Qed.

Lemma showResult_perfect_transcript_witness :
  ∃ history' shown,
    showResult ascii_tokenize "the quick brown fox" " the  quick brown fox "
      (Finite (1 # 2)) []
    = Some (history', shown) ∧
    shown_errors shown = 0%Z ∧
    shown_accuracy shown = FixedDecimal false 10000 ∧
    shown_netWPM shown = shown_grossWPM shown.
Proof.
  apply (showResult_perfect_transcript ascii_tokenize
           "the quick brown fox" " the  quick brown fox " (Finite (1 # 2)) []).
  - reflexivity.
  - discriminate.
Defined.

(** * The exam timer *)

Lemma ticks_S k e : ticks (S k) e = tick (ticks k e).
Proof. reflexivity. Qed.

(** While time is left, each firing lowers [timeLeft] by one and shows the
    time that was left before it. *)
Lemma ticks_countdown (k : nat) (e : exam) :
  timerRunning e = true →
  (Z.of_nat k ≤ timeLeft e)%Z →
  ticks k e =
  Exam (timeLeft e - Z.of_nat k) true
       (match k with
        | 0 => timerShown e
        | S k' => Some (((timeLeft e - Z.of_nat k') / 60)%Z,
                        Z.rem (timeLeft e - Z.of_nat k') 60)
        end)
       (submitted e).
Proof.
  intros Hrun. induction k as [|k IH]; intros Hk.
  - destruct e. cbn in *. subst. f_equal. lia.
  - rewrite ticks_S, IH by lia. unfold tick, updateTimer.
    cbn [timerRunning timeLeft timerShown submitted].
    destruct (Z.ltb_spec (timeLeft e - Z.of_nat k - 1) 0); [lia|].
    f_equal. lia.
Qed.

(** Once the interval is cleared nothing changes any more. *)
Lemma ticks_stopped k e : timerRunning e = false → ticks k e = e.
Proof.
  intros Hstop. induction k as [|k IH]; [done|].
  rewrite ticks_S, IH. unfold tick. by rewrite Hstop.
Qed.

(** The firing that finds no time left shows it and submits. *)
Lemma ticks_expiry (k : nat) (e : exam) :
  timerRunning e = true →
  (0 ≤ timeLeft e)%Z →
  Z.of_nat k = timeLeft e →
  ticks (S k) e = Exam (-1) false (Some (0%Z, 0%Z)) true.
Proof.
  intros Hrun Hpos Hk. rewrite ticks_S, ticks_countdown by (done || lia).
  unfold tick, updateTimer, submitExam.
  cbn [timerRunning timeLeft timerShown submitted].
  replace (timeLeft e - Z.of_nat k)%Z with 0%Z by lia. done.
Qed.

(** X10. An exam of [d > 0] minutes counts down once per firing of the
    timer: after [k <= 60 d] firings [60 d - k] seconds are left and
    nothing is submitted, and the minutes and seconds shown are those of
    the time left before the last firing. Firing [60 d + 1] shows 0:0 and
    submits the exam, and stops the timer: later firings change nothing.
    (Stated for times below 2^53 seconds, where the numbers are exact.) *)
Theorem exam_countdown (passage : string) (d : Z) :
  passage ≠ EmptyString → (0 < d)%Z → (60 * d < 2 ^ 53)%Z →
  ∃ e,
    startExam (Some passage) (Some d) = ExamStarted e ∧
    (∀ k : nat, (Z.of_nat k ≤ 60 * d)%Z →
       timeLeft (ticks k e) = (60 * d - Z.of_nat k)%Z ∧
       timerRunning (ticks k e) = true ∧
       submitted (ticks k e) = false) ∧
    (∀ k : nat, (Z.of_nat k < 60 * d)%Z →
       ∃ min sec,
         timerShown (ticks (S k) e) = Some (min, sec) ∧
         (0 ≤ sec < 60)%Z ∧ (60 * min + sec = 60 * d - Z.of_nat k)%Z) ∧
    (∀ k : nat, (60 * d < Z.of_nat k)%Z →
       ticks k e = Exam (-1) false (Some (0%Z, 0%Z)) true).
Proof.
  intros Hpassage Hd _. eexists. split_and!.
  - unfold startExam. cbn [no_text no_number].
    by rewrite !bool_decide_false by (done || lia).
  - intros k Hk. rewrite ticks_countdown by (done || (simpl; lia)).
    simpl. split_and!; (done || lia).
  - intros k Hk.
    rewrite ticks_countdown by (done || (simpl; lia)).
    cbn [timeLeft timerShown from_option id]. do 2 eexists. split; [done|].
    set (left := (d * 60 - Z.of_nat k)%Z).
    assert (0 ≤ left)%Z by (unfold left; lia).
    rewrite Z.rem_mod_nonneg by lia.
    pose proof (Z.mod_pos_bound left 60 ltac:(lia)).
    pose proof (Z.div_mod left 60 ltac:(lia)). lia.
  - intros k Hk.
    set (e := Exam (default 0%Z (Some d) * 60) true None false).
    set (n := Z.to_nat (60 * d)).
    replace k with ((k - S n) + S n) by lia.
    unfold ticks. rewrite Nat.iter_add. fold (ticks (S n) e).
    rewrite (ticks_expiry n e)
      by (done || (unfold e, n; simpl; lia)).
    by apply ticks_stopped.
Qed.

Lemma exam_countdown_witness :
  ∃ e,
    startExam (Some "the quick brown fox"%string) (Some 2%Z) = ExamStarted e ∧
    timeLeft (ticks 45 e) = 75%Z ∧
    submitted (ticks 120 e) = false ∧
    (∃ min sec, timerShown (ticks 46 e) = Some (min, sec) ∧
                (0 ≤ sec < 60)%Z ∧ (60 * min + sec = 75)%Z) ∧
    ticks 121 e = Exam (-1) false (Some (0%Z, 0%Z)) true.
Proof.
  destruct (exam_countdown "the quick brown fox" 2)
    as (e & Hstart & Hcount & Hshown & Hend).
  - discriminate.
  - reflexivity.
  - reflexivity.
  - exists e. split_and!.
    + exact Hstart.
    + apply (Hcount 45). simpl. lia.
    + apply (Hcount 120). simpl. lia.
    + apply (Hshown 45). simpl. lia.
    + apply (Hend 121). simpl. lia.
Defined.

(** X11. [startExam] finds no test exactly when the stored passage is
    missing or empty or the stored time is not a number or is zero. A
    negative time is a test: the exam starts with no time left, and the
    first firing of the timer shows [d] minutes 0 seconds and submits.
    (The second part is stated above -2^53 seconds, where the numbers are
    exact.) *)
Theorem startExam_guard (passage : option string) (duration : option Z) :
  (startExam passage duration = NoTestFound ↔
   passage = None ∨ passage = Some EmptyString ∨
   duration = None ∨ duration = Some 0%Z) ∧
  (∀ p d, passage = Some p → duration = Some d →
          p ≠ EmptyString → (- 2 ^ 53 < 60 * d)%Z → (d < 0)%Z →
          ∃ e, startExam passage duration = ExamStarted e ∧
               ticks 1 e = Exam (60 * d - 1) false (Some (d, 0%Z)) true).
Proof.
  split.
  - unfold startExam. destruct passage as [p|], duration as [d|];
      cbn [no_text no_number orb]; repeat case_bool_decide; subst;
      cbn [orb]; (split; [intros ?; auto | intros [?|[?|[?|?]]]]);
      congruence.
  - intros p d -> -> Hp _ Hd. eexists. split.
    + unfold startExam. cbn [no_text no_number].
      by rewrite !bool_decide_false by (done || lia).
    + cbv [ticks Nat.iter nat_rect tick updateTimer submitExam timerRunning
           timeLeft timerShown submitted from_option id].
      destruct (Z.ltb_spec (d * 60 - 1) 0); [|lia].
      rewrite Z.div_mul, Z.rem_mul by done. f_equal. lia.
Qed.

Lemma startExam_guard_witness :
  ∃ e, startExam (Some "fox"%string) (Some (-5)%Z) = ExamStarted e ∧
       ticks 1 e = Exam (-301) false (Some ((-5)%Z, 0%Z)) true.
Proof.
  destruct (startExam_guard (Some "fox"%string) (Some (-5)%Z)) as [_ Hneg].
  apply (Hneg "fox"%string (-5)%Z).
  - reflexivity.
  - reflexivity.
  - discriminate.
  - reflexivity.
  - reflexivity.
Defined.

(** * The home page *)

Lemma home_step_well_saved (trim : string → string)
    (h : home) (a : home_action) :
  Forall (well_saved trim) (passages h) →
  Forall (well_saved trim) (passages (home_step trim h a)).
Proof.
  intros Hall. destruct a as [text| |i confirmed]; cbn [home_step].
  - done.
  - unfold savePassage. case_bool_decide as Hblank; [done|].
    cbn [fst passages]. apply Forall_app. split; [done|].
    apply Forall_singleton. split; [done | by eexists].
  - unfold deletePassage. destruct confirmed; [|done].
    cbn [passages]. by apply Forall_delete.
Qed.

(** X12. Whatever is done on the home page (editing the text field,
    saving, deleting, in any order and any number of times), every passage
    in the store is a trimmed text and none is empty, provided that held
    of the store at the start (an empty store in particular). *)
Theorem stored_passages_never_empty
    (trim : string → string) (actions : list home_action) (h : home) :
  Forall (well_saved trim) (passages h) →
  Forall (well_saved trim) (passages (home_run trim actions h)).
Proof.
  revert h. induction actions as [|a actions IH]; intros h Hall; [done|].
  cbn [home_run foldl]. apply IH. by apply home_step_well_saved.
Qed.

Lemma stored_passages_never_empty_witness :
  Forall (well_saved ascii_trim)
    (passages
       (home_run ascii_trim
          [Edit "  the quick brown fox "; SavePassage; Edit "   "; SavePassage;
           Edit "second"; SavePassage; DeletePassage 0 true]
          (Home "" []))).
Proof.
  apply (stored_passages_never_empty ascii_trim).
  apply Forall_nil_2.
Defined.

(** X13. [savePassage] refuses a blank text with an alert and changes
    nothing. Otherwise it clears the field and appends the trimmed text
    as the last passage; [usePassage] on that last index puts the trimmed
    text back in the field, and a confirmed [deletePassage] on it restores
    the list of passages as it was. *)
Theorem savePassage_round_trip (trim : string → string) (h : home) :
  (trim (passageInput h) = EmptyString →
   savePassage trim h = (h, Some "Enter passage first"%string)) ∧
  (trim (passageInput h) ≠ EmptyString →
   let h' := (savePassage trim h).1 in
   let last := length (passages h) in
   (savePassage trim h).2 = None ∧
   passageInput h' = EmptyString ∧
   passages h' = passages h ++ [trim (passageInput h)] ∧
   usePassage last h' = Some (Home (trim (passageInput h)) (passages h')) ∧
   passages (deletePassage last true h') = passages h ∧
   deletePassage last false h' = h').
Proof.
  unfold savePassage. split; intros Htext.
  - by rewrite bool_decide_true.
  - rewrite bool_decide_false by done. cbv zeta. cbn [fst snd].
    unfold usePassage, deletePassage. cbn [passages passageInput].
    split_and!; try done.
    + by rewrite list_lookup_middle.
    + rewrite delete_middle. apply app_nil_r.
Qed.

Lemma savePassage_round_trip_witness :
  savePassage ascii_trim (Home "   " ["one"]) =
    (Home "   " ["one"], Some "Enter passage first"%string) ∧
  passages
    (deletePassage 1 true (savePassage ascii_trim (Home " two " ["one"])).1)
  = ["one"].
Proof.
  split.
  - apply (savePassage_round_trip ascii_trim (Home "   " ["one"])).
    reflexivity.
  - apply (savePassage_round_trip ascii_trim (Home " two " ["one"])).
    discriminate.
Defined.



(** * The distance is a metric *)

(** Going through an intermediate sequence is never shorter, for all
    prefixes. *)
Lemma distance_triangle (A B C : list string) i j k :
  (Spec.distance A C i k
   ≤ Spec.distance A B i j + Spec.distance B C j k)%Z.
Proof.
  remember (i + j + k) as size eqn:Hsize.
  revert i j k Hsize.
  induction size as [size IH] using lt_wf_ind. intros i j k ->.
  destruct i as [|i].
  { rewrite !distance_0_l.
    destruct (distance_ge_difference B C j k). lia. }
  destruct k as [|k].
  { rewrite !distance_0_r.
    destruct (distance_ge_difference A B (S i) j). lia. }
  destruct j as [|j].
  { rewrite distance_0_r, distance_0_l.
    pose proof (distance_le_max A C (S i) (S k)). lia. }
  pose proof (IH (i + S j + S k) ltac:(lia) i (S j) (S k) eq_refl) as IH1.
  pose proof (IH (S i + S j + k) ltac:(lia) (S i) (S j) k eq_refl) as IH2.
  pose proof (IH (S i + j + S k) ltac:(lia) (S i) j (S k) eq_refl) as IH3.
  pose proof (IH (i + j + k) ltac:(lia) i j k eq_refl) as IH4.
  destruct (distance_adjacent A C i (S k)) as [_ [F1 _]].
  destruct (distance_adjacent A C (S i) k) as [[F2 _] _].
  destruct (distance_adjacent B C j (S k)) as [_ [_ F3]].
  destruct (distance_adjacent A B (S i) j) as [[_ F4] _].
  destruct (distance_adjacent A C i k) as [[_ F5] [_ F6]].
  assert (Spec.distance A C (S i) (S k) ≤ Spec.distance A C i k + 1)%Z
    as Hstep by (rewrite distance_S_S; case_bool_decide; lia).
  assert (A !! i = C !! k →
          Spec.distance A C (S i) (S k) = Spec.distance A C i k) as Hsame
    by (intros ?; by rewrite distance_S_S, bool_decide_true).
  pose proof (distance_S_S A B i j) as HAB.
  pose proof (distance_S_S B C j k) as HBC.
  destruct (decide (A !! i = B !! j)) as [Hab|Hab];
    destruct (decide (B !! j = C !! k)) as [Hbc|Hbc];
    rewrite ?(bool_decide_true _ Hab), ?(bool_decide_false _ Hab) in HAB;
    rewrite ?(bool_decide_true _ Hbc), ?(bool_decide_false _ Hbc) in HBC;
    [|lia..].
  rewrite Hsame by congruence. lia.
Qed.

(** X15. [errors] obeys the triangle inequality: the errors of C against
    A are at most the errors of B against A plus the errors of C against
    B. *)
Theorem errors_triangle (A B C : list string) :
  ∃ ab bc ac,
    wordEditDistance A B = Some ab ∧
    wordEditDistance B C = Some bc ∧
    wordEditDistance A C = Some ac ∧
    (errors ac ≤ errors ab + errors bc)%Z.
Proof.
  do 3 eexists. split_and!; [apply wordEditDistance_correct..|].
  cbn [errors]. apply distance_triangle.
Qed.
